(** * minbpe.c: a byte-pair-encoding tokenizer

    A shallow embedding of [src/minbpe.c] and the properties of its
    trainer, encoder, decoder and merger.

    Conventions of the embedding.

    - A C [int] is a [Z] in the range of 32 bits; a [size_t] is a [Z] below
      [2 ^ size_bits], and every conversion between the two is written out
      ([to_int], [to_size_t], [to_uchar]).
    - The width of [size_t] is not fixed by the source, and [token_counts]
      depends on it: it hands its table of [size_t] cells to
      [find_pair_index] through the cast [(Merge * )pair_counts].  The
      development is therefore carried out for both usual data models
      ([ILP32]: 32-bit [size_t]; [LP64]: 64-bit [size_t], little endian),
      and the theorems hold for each of them.
    - An array is the list of its initialised cells.  A read or a write
      outside an array has no meaning in C: the embedding gives such a run
      the outcome [Undefined].
    - Allocation of a block of at most [PTRDIFF_MAX] bytes is taken to
      succeed.  The size asked for is computed in [size_t], wrap-around
      included, and the block has the cells that fit in it; no object is
      larger than [PTRDIFF_MAX] bytes, so a larger request is answered by
      the null pointer, which has no cell ([malloc_cells]).
    - The source reports no errors: every function returns [void].  *)

From Stdlib Require Import String Ascii.
From Stdlib Require Import ZArith List Bool Lia.
Import ListNotations.
Local Open Scope Z_scope.

(** ** Outcomes *)

Inductive outcome (A : Type) : Type :=
| Returns (a : A)
| Undefined.
Arguments Returns {A} a.
Arguments Undefined {A}.

Definition bind {A B : Type} (o : outcome A) (k : A -> outcome B) : outcome B :=
  match o with
  | Returns a => k a
  | Undefined => Undefined
  end.

Declare Scope outcome_scope.
Delimit Scope outcome_scope with outcome.
Notation "x <- c ;; k" := (bind c (fun x => k))
  (at level 61, c at next level, right associativity) : outcome_scope.
Notation "' pat <- c ;; k" := (bind c (fun x => let 'pat := x in k))
  (at level 61, pat pattern, c at next level, right associativity) : outcome_scope.
Local Open Scope outcome_scope.

(** Case analysis on the outcome a hypothesis binds first: the run it
    describes went on, so that outcome is a value. *)
Tactic Notation "returned" hyp(H) "as" simple_intropattern(pat) "eqn" ":" ident(E) :=
  match type of H with
  | context [bind ?o _] =>
      destruct o as [pat|] eqn:E; [cbn [bind] in H | discriminate H]
  end.

(** [rd a i] is the read [a[i]]. *)
Definition rd {A : Type} (a : list A) (i : Z) : outcome A :=
  if i <? 0 then Undefined
  else match nth_error a (Z.to_nat i) with
       | Some x => Returns x
       | None => Undefined
       end.

(** ** Machine integers *)

Inductive data_model : Type := ILP32 | LP64.

Definition size_bits (dm : data_model) : Z :=
  match dm with ILP32 => 32 | LP64 => 64 end.

Definition SIZE_MAX (dm : data_model) : Z := 2 ^ size_bits dm - 1.

Definition to_size_t (dm : data_model) (z : Z) : Z := z mod 2 ^ size_bits dm.

Definition to_int (z : Z) : Z := (z + 2 ^ 31) mod 2 ^ 32 - 2 ^ 31.

Definition to_uchar (z : Z) : Z := z mod 256.

Definition is_int (z : Z) : Prop := - 2 ^ 31 <= z < 2 ^ 31.

Definition PTRDIFF_MAX (dm : data_model) : Z := 2 ^ (size_bits dm - 1) - 1.

(** An [int] has four bytes under both data models. *)
Definition sizeof_int : Z := 4.

(** [malloc(request)] for an array of cells of [cell] bytes, the request
    being computed in [size_t]: the number of cells of the block handed
    back.  A request above [PTRDIFF_MAX] gets the null pointer. *)
Definition malloc_cells (dm : data_model) (request cell : Z) : Z :=
  let bytes := to_size_t dm request in
  if bytes <=? PTRDIFF_MAX dm then bytes / cell else 0.

(** ** The structures *)

Definition INITIAL_VOCAB_SIZE : Z := 256.
Definition MAX_TEXT_SIZE : Z := 1024.

Record IntPair : Type := { first : Z; second : Z }.

Record Merge : Type := { pair : IntPair; idx : Z }.

(** Three [int]s, without padding. *)
Definition sizeof_Merge : Z := 3 * sizeof_int.

(** [merges] holds the cells of the array written so far, [vocab] one byte
    buffer per entry of the pointer array. *)
Record BasicTokenizer : Type := {
  merges : list Merge;
  num_merges : Z;
  vocab : list (list Z);
  vocab_size : Z
}.

Definition pair_eqb (p q : IntPair) : bool :=
  (first p =? first q) && (second p =? second q).

(** The bytes of a C string: the characters before the first NUL, each as
    [(unsigned char)text[i]]. *)
Fixpoint c_chars (text : string) : list Z :=
  match text with
  | EmptyString => []
  | String c rest =>
      if (N_of_ascii c =? 0)%N then [] else Z.of_N (N_of_ascii c) :: c_chars rest
  end.

(** ** merge *)

(** The loop of [merge]: at [ids[i]], with [ids[i+1]] read only when
    [i < *ids_size - 1]. *)
Fixpoint merge_scan (ids : list Z) (p : IntPair) (idx : Z) : list Z :=
  match ids with
  | [] => []
  | a :: rest =>
      match rest with
      | b :: rest' =>
          if (a =? first p) && (b =? second p)
          then idx :: merge_scan rest' p idx
          else a :: merge_scan rest p idx
      | [] => [a]
      end
  end.

(** [new_ids] has [MAX_TEXT_SIZE] cells. *)
Definition merge (ids : list Z) (p : IntPair) (idx : Z) : outcome (list Z) :=
  let new_ids := merge_scan ids p idx in
  if Z.of_nat (length new_ids) <=? MAX_TEXT_SIZE then Returns new_ids else Undefined.

(** The Merger of the specification, in its words: left to right, a position
    that forms the target pair with the next one is replaced by the new id
    and both are passed; any other position is copied. *)
Inductive spec_apply (p : IntPair) (new_id : Z) : list Z -> list Z -> Prop :=
| spec_apply_end : spec_apply p new_id [] []
| spec_apply_pair a b rest out :
    a = first p -> b = second p ->
    spec_apply p new_id rest out ->
    spec_apply p new_id (a :: b :: rest) (new_id :: out)
| spec_apply_copy a rest out :
    ~ (a = first p /\ exists rest', rest = second p :: rest') ->
    spec_apply p new_id rest out ->
    spec_apply p new_id (a :: rest) (a :: out).

(** ** find_pair_index *)

(** [ms] holds the cells from [merges[i]] on. *)
Fixpoint find_pair_loop (ms : list Merge) (merges_size i : Z) (p : IntPair)
  {struct ms} : outcome Z :=
  if i <? merges_size then
    match ms with
    | [] => Undefined
    | m :: ms' =>
        if pair_eqb (pair m) p then Returns i
        else find_pair_loop ms' merges_size (i + 1) p
    end
  else Returns merges_size.

Definition find_pair_index (ms : list Merge) (merges_size : Z) (p : IntPair)
  : outcome Z :=
  find_pair_loop ms merges_size 0 p.

(** ** token_counts *)

(** The cast [(Merge * )pair_counts]: the cells of the table read as
    records of three [int]s.  Where [size_t] has the width of [int] a
    [Merge] covers the three cells of one entry; where it is twice as wide,
    each cell is two [int]s, low half first, and a [Merge] covers a cell
    and a half ([cast_merges_LP64]; [token_counts_loop_LP64] says what it
    does to the counts). *)
Definition int_words (dm : data_model) (cells : list Z) : list Z :=
  match dm with
  | ILP32 => map to_int cells
  | LP64 => flat_map (fun c => [to_int (c mod 2 ^ 32); to_int (c / 2 ^ 32)]) cells
  end.

Fixpoint as_merges (words : list Z) : list Merge :=
  match words with
  | a :: b :: c :: rest =>
      {| pair := {| first := a; second := b |}; idx := c |} :: as_merges rest
  | _ => []
  end.

Definition cast_merges (dm : data_model) (cells : list Z) : list Merge :=
  as_merges (int_words dm cells).

Fixpoint upd {A : Type} (a : list A) (k : nat) (x : A) : list A :=
  match a, k with
  | [], _ => []
  | _ :: rest, O => x :: rest
  | y :: rest, S k' => y :: upd rest k' x
  end.

(** [wr a i x] is the write [a[i] = x]. *)
Definition wr {A : Type} (a : list A) (i : Z) (x : A) : outcome (list A) :=
  if (0 <=? i) && (i <? Z.of_nat (length a)) then Returns (upd a (Z.to_nat i) x)
  else Undefined.

(** The loop of [token_counts], at [ids[i]] with [ids[i+1]] present.
    [pair_counts] holds the [pair_counts_size * 3] cells written so far of
    a table of [MAX_TEXT_SIZE * 3]. *)
Fixpoint token_counts_loop (dm : data_model) (ids : list Z)
    (pair_counts : list Z) (pair_counts_size : Z) : outcome (list Z * Z) :=
  match ids with
  | [] => Returns (pair_counts, pair_counts_size)
  | a :: rest =>
      match rest with
      | [] => Returns (pair_counts, pair_counts_size)
      | b :: _ =>
          let p := {| first := a; second := b |} in
          index <- find_pair_index (cast_merges dm pair_counts) pair_counts_size p ;;
          if index =? pair_counts_size then
            if pair_counts_size <? MAX_TEXT_SIZE then
              token_counts_loop dm rest
                (pair_counts ++ [to_size_t dm a; to_size_t dm b; 1])
                (pair_counts_size + 1)
            else Undefined
          else
            count <- rd pair_counts (index * 3 + 2) ;;
            pair_counts' <- wr pair_counts (index * 3 + 2) (to_size_t dm (count + 1)) ;;
            token_counts_loop dm rest pair_counts' pair_counts_size
      end
  end.

(** With [ids_size = 0] the bound [ids_size - 1] wraps to [SIZE_MAX] and
    the first iteration reads [ids[0]] and [ids[1]]. *)
Definition token_counts (dm : data_model) (ids : list Z) : outcome (list Z * Z) :=
  match ids with
  | [] => Undefined
  | _ :: _ => token_counts_loop dm ids [] 0
  end.

(** ** create_tokenizer *)

Definition create_tokenizer : BasicTokenizer :=
  {| merges := [];
     num_merges := 0;
     vocab := map (fun i => [to_uchar (Z.of_nat i)]) (seq 0 (Z.to_nat INITIAL_VOCAB_SIZE));
     vocab_size := INITIAL_VOCAB_SIZE |}.

(** ** train *)

(** The loop over the table that keeps the first entry of greatest count. *)
Fixpoint best_count (pair_counts : list Z) (max_count : Z) (best_pair : IntPair)
  : Z * IntPair :=
  match pair_counts with
  | f :: s :: count :: rest =>
      if max_count <? count
      then best_count rest count {| first := to_int f; second := to_int s |}
      else best_count rest max_count best_pair
  | _ => (max_count, best_pair)
  end.

(** [realloc] to [n] cells: the old cells that fit are kept; a new cell is
    a pointer not yet set, which has no byte to read. *)
Definition realloc (n : Z) (cells : list (list Z)) : list (list Z) :=
  firstn (Z.to_nat n) cells ++ repeat [] (Z.to_nat n - length cells).

(** The body of the [for] loop, [n] iterations being left.  [merges[i]] is
    cell [i] of the array this call allocated, whose cells before [i] the
    earlier iterations wrote; that the array has a cell [i] is checked by
    [train], which knows its size.  The fields [num_merges] and
    [vocab_size] of the tokenizer are not assigned. *)
Fixpoint train_loop (dm : data_model) (n : nat) (i : Z) (ids : list Z)
    (t : BasicTokenizer) : outcome (list Z * BasicTokenizer) :=
  match n with
  | O => Returns (ids, t)
  | S n' =>
      '(pair_counts, pair_counts_size) <- token_counts dm ids ;;
      let '(max_count, best_pair) :=
        best_count (firstn (Z.to_nat (pair_counts_size * 3)) pair_counts)
                   0 {| first := 0; second := 0 |} in
      if max_count =? 0 then Returns (ids, t)
      else
        let idx := to_int (to_size_t dm (INITIAL_VOCAB_SIZE + i)) in
        ids' <- merge ids best_pair idx ;;
        let merges' := merges t ++ [{| pair := best_pair; idx := idx |}] in
        vocab' <- wr (realloc (idx + 1) (vocab t)) idx
                     [to_uchar (first best_pair); to_uchar (second best_pair)] ;;
        train_loop dm n' (to_size_t dm (i + 1)) ids'
          {| merges := merges';
             num_merges := num_merges t;
             vocab := vocab';
             vocab_size := vocab_size t |}
  end.

(** [verbose] only selects what is printed and is left out.

    The two arrays of [train] are sized by the call.  [ids] is
    [malloc(text_size * sizeof(int))] and its cells [0 .. text_size - 1]
    are written before the loop.  [merges] is
    [malloc(num_merges * sizeof(Merge))]; the loop writes [merges[i]] in
    iteration [i] for every rule it learns, that is the cells
    [0 .. k - 1] when it leaves [k] rules: a block of fewer than [k] cells
    has been written outside of. *)
Definition train (dm : data_model) (t : BasicTokenizer) (text : string)
    (target_vocab_size : Z) : outcome BasicTokenizer :=
  let n_merges := to_size_t dm (target_vocab_size - INITIAL_VOCAB_SIZE) in
  let ids := c_chars text in
  let text_size := Z.of_nat (length ids) in
  if malloc_cells dm (text_size * sizeof_int) sizeof_int <? text_size then Undefined
  else
    let merges_cells := malloc_cells dm (n_merges * sizeof_Merge) sizeof_Merge in
    let t0 := {| merges := [];
                 num_merges := num_merges t;
                 vocab := vocab t;
                 vocab_size := vocab_size t |} in
    '(_, t') <- train_loop dm (Z.to_nat n_merges) 0 ids t0 ;;
    if Z.of_nat (length (merges t')) <=? merges_cells then Returns t' else Undefined.

(** ** encode *)

(** The loop over the table that keeps the first entry whose pair has the
    least index in the merges. *)
Fixpoint best_rank (t : BasicTokenizer) (pair_counts : list Z)
    (best_pair : IntPair) (best_idx min_merge_idx : Z) : outcome (IntPair * Z) :=
  match pair_counts with
  | f :: s :: _ :: rest =>
      let p := {| first := to_int f; second := to_int s |} in
      idx <- find_pair_index (merges t) (num_merges t) p ;;
      if (idx <? num_merges t) && (idx <? min_merge_idx)
      then best_rank t rest p idx idx
      else best_rank t rest best_pair best_idx min_merge_idx
  | _ => Returns (best_pair, best_idx)
  end.

(** The body of the [while] loop: [None] is the [break]. *)
Definition encode_step (dm : data_model) (t : BasicTokenizer) (ids : list Z)
  : outcome (option (list Z)) :=
  '(pair_counts, pair_counts_size) <- token_counts dm ids ;;
  '(best_pair, best_idx) <-
     best_rank t (firstn (Z.to_nat (pair_counts_size * 3)) pair_counts)
               {| first := -1; second := -1 |} 0 (SIZE_MAX dm) ;;
  if first best_pair =? -1 then Returns None
  else
    m <- rd (merges t) best_idx ;;
    ids' <- merge ids best_pair (idx m) ;;
    Returns (Some ids').

(** The [while] loop.  A merge shortens the sequence, so no more
    iterations than the sequence has ids are run: further fuel changes
    nothing ([encode_loop_more_fuel]), and what is returned is what the
    Encoder of the specification reaches ([encode_fuel_enough]). *)
Fixpoint encode_loop (dm : data_model) (fuel : nat) (t : BasicTokenizer)
    (ids : list Z) : outcome (list Z) :=
  match fuel with
  | O => Returns ids
  | S fuel' =>
      if 2 <=? Z.of_nat (length ids) then
        r <- encode_step dm t ids ;;
        match r with
        | None => Returns ids
        | Some ids' => encode_loop dm fuel' t ids'
        end
      else Returns ids
  end.

Definition encode (dm : data_model) (t : BasicTokenizer) (text : string)
  : outcome (list Z) :=
  let ids := c_chars text in
  encode_loop dm (length ids) t ids.

(** ** decode *)

(** The bytes written to [text] before the terminator. *)
Fixpoint decode (t : BasicTokenizer) (ids : list Z) : outcome (list Z) :=
  match ids with
  | [] => Returns []
  | id :: rest =>
      entry <- rd (vocab t) id ;;
      c <- rd entry 0 ;;
      text <- decode t rest ;;
      Returns (c :: text)
  end.

(** ** Notions used to state the properties *)

(** The adjacent pairs [(ids[i], ids[i+1])] of a sequence, left to right. *)
Fixpoint adjacent_pairs (ids : list Z) : list IntPair :=
  match ids with
  | [] => []
  | a :: rest =>
      match rest with
      | [] => []
      | b :: _ => {| first := a; second := b |} :: adjacent_pairs rest
      end
  end.

(** The pairs of a table of counts, as the loops of [train] and [encode]
    read them. *)
Fixpoint entries (pair_counts : list Z) : list IntPair :=
  match pair_counts with
  | f :: s :: _ :: rest => {| first := to_int f; second := to_int s |} :: entries rest
  | _ => []
  end.

(** The position of the first rule for [p] in a list of rules. *)
Fixpoint index_of (p : IntPair) (table : list Merge) : option Z :=
  match table with
  | [] => None
  | m :: rest =>
      if pair_eqb (pair m) p then Some 0
      else match index_of p rest with
           | Some r => Some (r + 1)
           | None => None
           end
  end.

(** The Merge Table of a tokenizer is the list of the rules training
    appended, in the order it learned them: the cells of [merges] written.
    The rank of a pair is its position there. *)
Definition merge_table (t : BasicTokenizer) : list Merge := merges t.

Definition rank (t : BasicTokenizer) (p : IntPair) : option Z :=
  index_of p (merge_table t).

(** An id a sequence can hold next to text bytes: a positive [int]. *)
Definition token_id (z : Z) : Prop := 0 < z < 2 ^ 31.

(** A tokenizer whose [num_merges] counts the rules of its Merge Table,
    the new ids being token ids. *)
Definition model_ok (dm : data_model) (t : BasicTokenizer) : Prop :=
  num_merges t = Z.of_nat (length (merges t)) /\
  num_merges t <= SIZE_MAX dm /\
  Forall (fun m => token_id (idx m)) (merge_table t).

(** A table of counts written entry after entry: [first, second, count]. *)
Fixpoint flat (es : list (Z * Z * Z)) : list Z :=
  match es with
  | [] => []
  | (f, s, c) :: rest => f :: s :: c :: flat rest
  end.

Definition pair_of (e : Z * Z * Z) : IntPair :=
  let '(f, s, _) := e in {| first := to_int f; second := to_int s |}.

(** Entry [k] with its count set to [v]. *)
Fixpoint bump (es : list (Z * Z * Z)) (k : nat) (v : Z) : list (Z * Z * Z) :=
  match es, k with
  | [], _ => []
  | (f, s, _) :: rest, O => (f, s, v) :: rest
  | e :: rest, S k' => e :: bump rest k' v
  end.

(** Under [LP64] the cast shows each entry as two records: the halves of
    [first] with the low half of [second], then the high half of [second]
    with the halves of the count. *)
Definition halves (e : Z * Z * Z) : list Merge :=
  let '(f, s, c) := e in
  [ {| pair := {| first := to_int (f mod 2 ^ 32); second := to_int (f / 2 ^ 32) |};
       idx := to_int (s mod 2 ^ 32) |};
    {| pair := {| first := to_int (s / 2 ^ 32); second := to_int (c mod 2 ^ 32) |};
       idx := to_int (c / 2 ^ 32) |} ].

(** An entry whose pair is made of non-negative [int]s. *)
Definition small (e : Z * Z * Z) : Prop :=
  let '(f, s, _) := e in 0 <= f < 2 ^ 31 /\ 0 <= s < 2 ^ 31.

(** The Encoder of the specification, in its words: among the adjacent
    pairs present that have a rank, the one of lowest rank is selected and
    its merge applied with the recorded new id; the encoder stops when no
    pair present has a rank. *)
Definition lowest_ranked (t : BasicTokenizer) (ids : list Z) (p : IntPair) (r : Z)
  : Prop :=
  In p (adjacent_pairs ids) /\
  rank t p = Some r /\
  forall q k, In q (adjacent_pairs ids) -> rank t q = Some k -> r <= k.

Inductive spec_encode (t : BasicTokenizer) : list Z -> list Z -> Prop :=
| spec_encode_stop ids :
    (forall p, In p (adjacent_pairs ids) -> rank t p = None) ->
    spec_encode t ids ids
| spec_encode_merge ids p r m ids' out :
    lowest_ranked t ids p r ->
    nth_error (merge_table t) (Z.to_nat r) = Some m ->
    spec_apply p (idx m) ids ids' ->
    spec_encode t ids' out ->
    spec_encode t ids out.

(** The tokenizers a program can hold: a fresh one, and what [train]
    leaves when it returns.  A trained one has been through [train]. *)
Inductive reachable (dm : data_model) : BasicTokenizer -> Prop :=
| reachable_create : reachable dm create_tokenizer
| reachable_train t text target t' :
    reachable dm t ->
    train dm t text target = Returns t' ->
    reachable dm t'.

Definition trained (dm : data_model) (t' : BasicTokenizer) : Prop :=
  exists t text target, reachable dm t /\ train dm t text target = Returns t'.

(** The vocabulary keeps its first 256 entries and has a byte in every
    entry. *)
Definition vocab_ok (v : list (list Z)) : Prop :=
  firstn 256 v = vocab create_tokenizer /\ Forall (fun e => e <> []) v.

(** The error kinds of the specification, and what the caller of one of
    its operations gets. *)
Inductive error_kind : Type := InvalidVocabSize | UnknownId | CapacityExceeded.

Inductive result (A : Type) : Type :=
| Ok (a : A)
| Error (e : error_kind).
Arguments Ok {A} a.
Arguments Error {A} e.

(** What the caller of a function of the source gets: the functions return
    [void] and set no status, so a call that returns has succeeded, and a
    run without meaning hands nothing back. *)
Definition reported {A : Type} (o : outcome A) : option (result A) :=
  match o with
  | Returns a => Some (Ok a)
  | Undefined => None
  end.

(** A model with two rules: [(97,98) -> 256] of rank 0 and
    [(98,99) -> 257] of rank 1. *)
Definition two_rules : BasicTokenizer :=
  {| merges := [ {| pair := {| first := 97; second := 98 |}; idx := 256 |};
                 {| pair := {| first := 98; second := 99 |}; idx := 257 |} ];
     num_merges := 2;
     vocab := vocab create_tokenizer;
     vocab_size := INITIAL_VOCAB_SIZE |}.

(** An id that indexes an entry of the vocabulary array. *)
Definition in_vocab (t : BasicTokenizer) (id : Z) : Prop :=
  0 <= id < Z.of_nat (length (vocab t)).

(** The entry of a pair counted once. *)
Definition once (p : IntPair) : Z * Z * Z := (first p, second p, 1).

(** The two bytes [train] stores for the new id of a rule. *)
Definition entry_of (m : Merge) : list Z :=
  [to_uchar (first (pair m)); to_uchar (second (pair m))].

(** The number of times a pair occurs in a list of pairs. *)
Fixpoint occurrences (p : IntPair) (ps : list IntPair) : Z :=
  match ps with
  | [] => 0
  | q :: rest => (if pair_eqb q p then 1 else 0) + occurrences p rest
  end.

(** The pairs of a list, each once, in the order of their first
    occurrence. *)
Fixpoint distinct (ps : list IntPair) : list IntPair :=
  match ps with
  | [] => []
  | p :: rest => p :: filter (fun q => negb (pair_eqb q p)) (distinct rest)
  end.

Definition memb (p : IntPair) (ps : list IntPair) : bool :=
  existsb (fun q => pair_eqb q p) ps.

(** The count a table holds for a pair: that of its first entry for it. *)
Fixpoint count_of (p : IntPair) (es : list (Z * Z * Z)) : Z :=
  match es with
  | [] => 0
  | e :: rest => if pair_eqb (pair_of e) p then snd e else count_of p rest
  end.

(** What an iteration of [token_counts] does to the table where the cast
    reads the entries as they were written: the count of the first entry
    for the pair goes up by one, or an entry of count 1 is added. *)
Fixpoint tally (es : list (Z * Z * Z)) (p : IntPair) : list (Z * Z * Z) :=
  match es with
  | [] => [(to_size_t ILP32 (first p), to_size_t ILP32 (second p), 1)]
  | e :: rest =>
      if pair_eqb (pair_of e) p
      then (fst e, to_size_t ILP32 (snd e + 1)) :: rest
      else e :: tally rest p
  end.

(** A pair of [int]s. *)
Definition int_pair (p : IntPair) : Prop := is_int (first p) /\ is_int (second p).

(** ** clean_tokenizer *)




(** A text of [n] letters. *)
Fixpoint letters (n : nat) : string :=
  match n with
  | O => EmptyString
  | S n' => String "a" (letters n')
  end.

(** * Properties of merge *)

Lemma merge_scan_length ids p idx :
  (length (merge_scan ids p idx) <= length ids)%nat.
Proof.
  remember (length ids) as n eqn:Hn.
  revert ids Hn. induction n as [n IH] using lt_wf_ind. intros ids Hn.
  destruct ids as [|a [|b rest]]; [simpl in *; lia | simpl in *; lia |].
  cbn [merge_scan].
  destruct ((a =? first p) && (b =? second p)).
  - pose proof (IH (length rest) ltac:(simpl in Hn; lia) rest eq_refl).
    simpl in *. lia.
  - pose proof (IH (length (b :: rest)) ltac:(simpl in Hn; simpl; lia) (b :: rest) eq_refl).
    simpl in *. lia.
Qed.

Lemma merge_scan_spec_apply ids p idx : spec_apply p idx ids (merge_scan ids p idx).
Proof.
  remember (length ids) as n eqn:Hn.
  revert ids Hn. induction n as [n IH] using lt_wf_ind. intros ids Hn.
  destruct ids as [|a [|b rest]].
  - constructor.
  - simpl. apply spec_apply_copy; [|constructor].
    intros [_ [r Hr]]. discriminate.
  - cbn [merge_scan].
    destruct ((a =? first p) && (b =? second p)) eqn:E.
    + apply andb_true_iff in E. destruct E as [Ea Eb].
      apply Z.eqb_eq in Ea, Eb.
      apply spec_apply_pair; auto.
      apply (IH (length rest)); [simpl in Hn; lia | reflexivity].
    + apply spec_apply_copy.
      * intros [Ha [r Hr]]. inversion Hr; subst.
        rewrite !Z.eqb_refl in E. discriminate.
      * apply (IH (length (b :: rest))); [simpl in Hn; simpl; lia | reflexivity].
Qed.

Lemma spec_apply_functional p idx ids out :
  spec_apply p idx ids out -> out = merge_scan ids p idx.
Proof.
  induction 1 as [|a b rest out Ha Hb H IH|a rest out Hn H IH].
  - reflexivity.
  - subst. cbn [merge_scan]. rewrite !Z.eqb_refl. reflexivity.
  - destruct rest as [|b rest].
    + inversion H; subst. reflexivity.
    + cbn [merge_scan].
      destruct ((a =? first p) && (b =? second p)) eqn:E.
      * exfalso. apply Hn. apply andb_true_iff in E. destruct E as [Ea Eb].
        apply Z.eqb_eq in Ea, Eb. subst. eauto.
      * rewrite IH. reflexivity.
Qed.

(** * Machine integers *)

Lemma to_int_id z : is_int z -> to_int z = z.
Proof.
  unfold is_int, to_int. intros H.
  rewrite Z.mod_small; lia.
Qed.

Lemma to_int_to_size_t dm z : is_int z -> to_int (to_size_t dm z) = z.
Proof.
  unfold is_int, to_int, to_size_t. intros H.
  destruct dm; cbn [size_bits];
    change (2 ^ 31) with 2147483648 in *;
    change (2 ^ 32) with 4294967296;
    change (2 ^ 64) with 18446744073709551616;
    Z.div_mod_to_equations; lia.
Qed.

Lemma token_id_is_int z : token_id z -> is_int z.
Proof. unfold token_id, is_int. lia. Qed.

Lemma high_word_small c : 0 <= c < 2 ^ 32 -> to_int (c / 2 ^ 32) = 0.
Proof.
  intros H. rewrite Z.div_small by lia. reflexivity.
Qed.

Lemma pair_eqb_eq p q : pair_eqb p q = true <-> p = q.
Proof.
  unfold pair_eqb. destruct p as [a b], q as [c d]. cbn.
  rewrite andb_true_iff, !Z.eqb_eq. split.
  - intros [-> ->]. reflexivity.
  - intros H. injection H as -> ->. auto.
Qed.

(** * Reads and writes *)

Lemma rd_nth_error {A} (a : list A) i x :
  rd a i = Returns x <-> 0 <= i /\ nth_error a (Z.to_nat i) = Some x.
Proof.
  unfold rd. destruct (i <? 0) eqn:E.
  - apply Z.ltb_lt in E. split; [discriminate | lia].
  - apply Z.ltb_ge in E. destruct (nth_error a (Z.to_nat i)); split.
    + intros H. injection H as ->. auto.
    + intros [_ H]. congruence.
    + discriminate.
    + intros [_ H]. discriminate.
Qed.

Lemma rd_in_range {A} (a : list A) i :
  0 <= i < Z.of_nat (length a) -> exists x, rd a i = Returns x.
Proof.
  intros H. unfold rd.
  destruct (i <? 0) eqn:E; [apply Z.ltb_lt in E; lia|].
  destruct (nth_error a (Z.to_nat i)) eqn:N; eauto.
  apply nth_error_None in N. lia.
Qed.

Lemma rd_out_of_range {A} (a : list A) i :
  ~ (0 <= i < Z.of_nat (length a)) -> rd a i = Undefined.
Proof.
  intros H. unfold rd.
  destruct (i <? 0) eqn:E; [reflexivity|]. apply Z.ltb_ge in E.
  destruct (nth_error a (Z.to_nat i)) eqn:N; [|reflexivity].
  exfalso. apply H. split; [lia|].
  assert (Hn : nth_error a (Z.to_nat i) <> None) by congruence.
  apply nth_error_Some in Hn. lia.
Qed.

(** * find_pair_index *)

Lemma find_pair_loop_index_of ms n i p :
  0 <= n - i <= Z.of_nat (length ms) ->
  find_pair_loop ms n i p =
  Returns (match index_of p (firstn (Z.to_nat (n - i)) ms) with
           | Some r => i + r
           | None => n
           end).
Proof.
  revert i. induction ms as [|m ms IH]; intros i H.
  - simpl in H. assert (n - i = 0) as E by lia.
    rewrite E. cbn. destruct (i <? n) eqn:L; [apply Z.ltb_lt in L; lia|]. reflexivity.
  - cbn [find_pair_loop]. destruct (i <? n) eqn:L.
    + apply Z.ltb_lt in L.
      replace (Z.to_nat (n - i)) with (S (Z.to_nat (n - (i + 1)))) by lia.
      cbn [firstn index_of].
      destruct (pair_eqb (pair m) p).
      * f_equal. lia.
      * rewrite IH by (simpl in H; lia).
        destruct (index_of p (firstn (Z.to_nat (n - (i + 1))) ms)); f_equal; lia.
    + apply Z.ltb_ge in L. replace (n - i) with 0 by lia. reflexivity.
Qed.

Lemma index_of_Some p table r :
  index_of p table = Some r ->
  0 <= r < Z.of_nat (length table) /\
  exists m, nth_error table (Z.to_nat r) = Some m /\ pair m = p.
Proof.
  revert r. induction table as [|m table IH]; intros r H; [discriminate|].
  cbn [index_of] in H. destruct (pair_eqb (pair m) p) eqn:E.
  - injection H as <-. split; [simpl; lia|].
    exists m. split; [reflexivity|]. apply pair_eqb_eq. exact E.
  - destruct (index_of p table) as [r'|]; [|discriminate].
    injection H as <-. destruct (IH r' eq_refl) as [Hr [m' [Hn Hp]]].
    split; [simpl; lia|]. exists m'. split; [|exact Hp].
    replace (Z.to_nat (r' + 1)) with (S (Z.to_nat r')) by lia. exact Hn.
Qed.

Lemma index_of_None p table :
  index_of p table = None -> forall m, In m table -> pair m <> p.
Proof.
  induction table as [|m table IH]; intros H m' Hin; [contradiction|].
  cbn [index_of] in H. destruct (pair_eqb (pair m) p) eqn:E; [discriminate|].
  destruct (index_of p table) eqn:I; [discriminate|].
  destruct Hin as [<-|Hin].
  - intros Hp. apply pair_eqb_eq in Hp. congruence.
  - apply IH; auto.
Qed.

Lemma find_pair_index_range ms n p :
  0 <= n <= Z.of_nat (length ms) ->
  exists k, find_pair_index ms n p = Returns k /\ 0 <= k <= n.
Proof.
  intros H. unfold find_pair_index.
  rewrite find_pair_loop_index_of by lia. rewrite Z.sub_0_r.
  destruct (index_of p (firstn (Z.to_nat n) ms)) as [r|] eqn:E.
  - apply index_of_Some in E. destruct E as [Hr _].
    rewrite length_firstn in Hr. exists (0 + r). split; [reflexivity|lia].
  - exists n. split; [reflexivity|lia].
Qed.

Lemma find_pair_index_rank t p :
  num_merges t = Z.of_nat (length (merges t)) ->
  find_pair_index (merges t) (num_merges t) p =
  Returns (match rank t p with Some r => r | None => num_merges t end).
Proof.
  intros H. unfold find_pair_index, rank, merge_table.
  rewrite find_pair_loop_index_of by lia. rewrite Z.sub_0_r.
  rewrite H, Nat2Z.id, firstn_all.
  destruct (index_of p _); reflexivity.
Qed.

(** * Tables of counts *)

Lemma flat_length es : length (flat es) = (3 * length es)%nat.
Proof. induction es as [|[[f s] c] es IH]; simpl; lia. Qed.

Lemma flat_app es es' : flat (es ++ es') = flat es ++ flat es'.
Proof. induction es as [|[[f s] c] es IH]; simpl; congruence. Qed.

Lemma entries_flat es : entries (flat es) = map pair_of es.
Proof. induction es as [|[[f s] c] es IH]; simpl; congruence. Qed.

Lemma bump_length es k v : length (bump es k v) = length es.
Proof.
  revert k. induction es as [|[[f s] c] es IH]; intros [|k]; simpl; auto.
Qed.

Lemma bump_pairs es k v : map pair_of (bump es k v) = map pair_of es.
Proof.
  revert k. induction es as [|[[f s] c] es IH]; intros [|k]; simpl; auto.
  rewrite IH. reflexivity.
Qed.

Lemma upd_flat es k v :
  upd (flat es) (3 * k + 2) v = flat (bump es k v).
Proof.
  revert k. induction es as [|[[f s] c] es IH]; intros k.
  - destruct k; reflexivity.
  - destruct k as [|k].
    + reflexivity.
    + replace (3 * S k + 2)%nat with (S (S (S (3 * k + 2)))) by lia.
      cbn [flat upd bump]. rewrite IH. reflexivity.
Qed.

Lemma firstn_flat es :
  firstn (Z.to_nat (Z.of_nat (length es) * 3)) (flat es) = flat es.
Proof.
  apply firstn_all2. rewrite flat_length. lia.
Qed.

Lemma cast_merges_ILP32 es :
  cast_merges ILP32 (flat es) =
  map (fun e => {| pair := pair_of e; idx := to_int (snd e) |}) es.
Proof.
  unfold cast_merges. induction es as [|[[f s] c] es IH]; [reflexivity|].
  cbn [flat int_words map as_merges pair_of snd] in *. rewrite IH. reflexivity.
Qed.

Lemma cast_merges_LP64 es : cast_merges LP64 (flat es) = flat_map halves es.
Proof.
  unfold cast_merges. induction es as [|[[f s] c] es IH]; [reflexivity|].
  cbn [flat int_words flat_map app as_merges halves] in *. rewrite IH. reflexivity.
Qed.

(** * token_counts *)

Section Counting.

Variable dm : data_model.

Lemma cast_merges_length es :
  (length es <= length (cast_merges dm (flat es)))%nat.
Proof.
  destruct dm.
  - rewrite cast_merges_ILP32, length_map. lia.
  - rewrite cast_merges_LP64. induction es as [|[[f s] c] es IH]; simpl in *; lia.
Qed.

Lemma find_in_table es p :
  exists k, find_pair_index (cast_merges dm (flat es)) (Z.of_nat (length es)) p = Returns k /\
            0 <= k <= Z.of_nat (length es).
Proof.
  apply find_pair_index_range. pose proof (cast_merges_length es). lia.
Qed.

Lemma token_counts_loop_step a b rest cells n :
  token_counts_loop dm (a :: b :: rest) cells n =
  (index <- find_pair_index (cast_merges dm cells) n {| first := a; second := b |} ;;
   if index =? n then
     if n <? MAX_TEXT_SIZE then
       token_counts_loop dm (b :: rest)
         (cells ++ [to_size_t dm a; to_size_t dm b; 1]) (n + 1)
     else Undefined
   else
     count <- rd cells (index * 3 + 2) ;;
     cells' <- wr cells (index * 3 + 2) (to_size_t dm (count + 1)) ;;
     token_counts_loop dm (b :: rest) cells' n).
Proof. reflexivity. Qed.

Lemma flat_snoc es f s c : flat es ++ [f; s; c] = flat (es ++ [(f, s, c)]).
Proof. rewrite flat_app. reflexivity. Qed.

Lemma length_snoc {A} (l : list A) x :
  Z.of_nat (length l) + 1 = Z.of_nat (length (l ++ [x])).
Proof. rewrite length_app. simpl. lia. Qed.

Lemma wr_flat es k v r :
  0 <= k ->
  wr (flat es) (k * 3 + 2) v = Returns r ->
  r = flat (bump es (Z.to_nat k) v).
Proof.
  intros Hk. unfold wr.
  destruct ((0 <=? k * 3 + 2) && (k * 3 + 2 <? Z.of_nat (length (flat es)))); [|discriminate].
  intros H. injection H as <-.
  replace (Z.to_nat (k * 3 + 2)) with (3 * Z.to_nat k + 2)%nat by lia.
  apply upd_flat.
Qed.

(** Every entry of the table is an adjacent pair of the sequence. *)
Lemma token_counts_loop_sound ids :
  forall es r,
    Forall is_int ids ->
    token_counts_loop dm ids (flat es) (Z.of_nat (length es)) = Returns r ->
    exists es' news,
      r = (flat es', Z.of_nat (length es')) /\
      map pair_of es' = map pair_of es ++ news /\
      incl news (adjacent_pairs ids).
Proof.
  induction ids as [|a ids IH]; intros es r Hint H.
  - cbn in H. injection H as <-. exists es, []. rewrite app_nil_r.
    repeat split. apply incl_refl.
  - destruct ids as [|b rest].
    + cbn in H. injection H as <-. exists es, []. rewrite app_nil_r.
      repeat split. apply incl_refl.
    + rewrite token_counts_loop_step in H.
      destruct (find_in_table es {| first := a; second := b |}) as [k [Hk Hr]].
      rewrite Hk in H. cbn [bind] in H.
      inversion Hint as [|? ? Ha Hint']; subst.
      pose proof Hint' as Hint''. inversion Hint'' as [|? ? Hb _]; subst.
      destruct (k =? Z.of_nat (length es)).
      * destruct (Z.of_nat (length es) <? MAX_TEXT_SIZE); [|discriminate].
        rewrite flat_snoc, (length_snoc es (to_size_t dm a, to_size_t dm b, 1)) in H.
        apply IH in H; [|exact Hint'].
        destruct H as [es' [news [Hres [Hmap Hincl]]]].
        exists es', ({| first := a; second := b |} :: news).
        split; [exact Hres|]. split.
        -- rewrite Hmap, map_app, <- app_assoc. cbn [map app pair_of].
           rewrite !to_int_to_size_t by assumption. reflexivity.
        -- cbn [adjacent_pairs]. intros q [<-|Hq]; [left; reflexivity|].
           right. apply Hincl. exact Hq.
      * returned H as count eqn:R.
        returned H as cells' eqn:W.
        apply wr_flat in W; [|lia]. subst cells'.
        rewrite <- (bump_length es (Z.to_nat k) (to_size_t dm (count + 1))) in H.
        apply IH in H; [|exact Hint'].
        destruct H as [es' [news [Hres [Hmap Hincl]]]].
        exists es', news. split; [exact Hres|]. split.
        -- rewrite Hmap, bump_pairs. reflexivity.
        -- cbn [adjacent_pairs]. intros q Hq. right. apply Hincl. exact Hq.
Qed.

Lemma token_counts_sound ids cells n :
  Forall is_int ids ->
  token_counts dm ids = Returns (cells, n) ->
  exists es,
    cells = flat es /\ n = Z.of_nat (length es) /\
    incl (map pair_of es) (adjacent_pairs ids).
Proof.
  intros Hint H. destruct ids as [|a ids]; [discriminate|].
  unfold token_counts in H.
  apply (token_counts_loop_sound (a :: ids) [] (cells, n) Hint) in H.
  destruct H as [es' [news [Hres [Hmap Hincl]]]].
  injection Hres as -> ->. exists es'. repeat split.
  rewrite Hmap. exact Hincl.
Qed.

Lemma wr_in_range {A} (a : list A) i x :
  0 <= i < Z.of_nat (length a) -> wr a i x = Returns (upd a (Z.to_nat i) x).
Proof.
  intros H. unfold wr.
  destruct (0 <=? i) eqn:E1; [|apply Z.leb_gt in E1; lia].
  destruct (i <? Z.of_nat (length a)) eqn:E2; [|apply Z.ltb_ge in E2; lia].
  reflexivity.
Qed.

Lemma to_size_t_small z : 0 <= z < 2 ^ 31 -> to_size_t dm z = z.
Proof.
  intros H. unfold to_size_t. apply Z.mod_small.
  destruct dm; cbn [size_bits]; lia.
Qed.

(** A pair of token ids found in the table by [find_pair_index] is the
    pair of one of its entries; with a [size_t] wider than [int] it is
    never found. *)
Lemma table_hit es p r :
  Forall small es ->
  token_id (first p) -> token_id (second p) ->
  index_of p (firstn (length es) (cast_merges dm (flat es))) = Some r ->
  r < Z.of_nat (length es) /\ In p (map pair_of es) /\ dm = ILP32.
Proof.
  intros Hsmall Hf Hs H.
  apply index_of_Some in H. destruct H as [Hr [m [Hn Hp]]].
  apply nth_error_In in Hn.
  assert (Hin : In m (cast_merges dm (flat es))).
  { rewrite <- (firstn_skipn (length es)). apply in_or_app. left. exact Hn. }
  rewrite length_firstn in Hr.
  split; [lia|].
  destruct dm.
  - rewrite cast_merges_ILP32 in Hin. apply in_map_iff in Hin.
    destruct Hin as [e [<- He]]. cbn [pair] in Hp. subst p.
    split; [|reflexivity]. apply in_map. exact He.
  - exfalso. rewrite cast_merges_LP64 in Hin. apply in_flat_map in Hin.
    destruct Hin as [[[f s] c] [He Hm]].
    rewrite Forall_forall in Hsmall. specialize (Hsmall _ He).
    cbn [small] in Hsmall. destruct Hsmall as [Hf' Hs'].
    unfold token_id in Hf, Hs.
    cbn [halves In] in Hm. destruct Hm as [<-|[<-|[]]]; cbn [pair] in Hp; subst p;
      cbn [first second] in Hf, Hs.
    + rewrite high_word_small in Hs by lia. lia.
    + rewrite high_word_small in Hf by lia. lia.
Qed.

(** A sequence of token ids within the capacity of the table is counted,
    and every adjacent pair gets an entry. *)
Lemma token_counts_loop_complete ids :
  forall es,
    Forall token_id ids ->
    Forall small es ->
    Z.of_nat (length es) + Z.of_nat (length ids) <= MAX_TEXT_SIZE + 1 ->
    exists es',
      token_counts_loop dm ids (flat es) (Z.of_nat (length es)) =
        Returns (flat es', Z.of_nat (length es')) /\
      forall q, In q (map pair_of es) \/ In q (adjacent_pairs ids) ->
                In q (map pair_of es').
Proof.
  induction ids as [|a ids IH]; intros es Hids Hsmall Hcap.
  - exists es. split; [reflexivity|]. intros q [H|[]]. exact H.
  - destruct ids as [|b rest].
    + exists es. split; [reflexivity|]. intros q [H|[]]. exact H.
    + rewrite token_counts_loop_step.
      inversion Hids as [|? ? Ha Hids']; subst.
      pose proof Hids' as Hids''. inversion Hids'' as [|? ? Hb _]; subst.
      set (p := {| first := a; second := b |}).
      unfold find_pair_index.
      rewrite find_pair_loop_index_of
        by (pose proof (cast_merges_length es); lia).
      rewrite Z.sub_0_r, Nat2Z.id.
      destruct (index_of p (firstn (length es) (cast_merges dm (flat es)))) as [r|] eqn:E.
      * destruct (table_hit es p r Hsmall Ha Hb E) as [Hr [Hin _]].
        pose proof (index_of_Some _ _ _ E) as [Hr0 _].
        cbn [bind]. replace (0 + r) with r by lia.
        destruct (r =? Z.of_nat (length es)) eqn:Er; [apply Z.eqb_eq in Er; lia|].
        destruct (rd_in_range (flat es) (r * 3 + 2)) as [count Hrd].
        { rewrite flat_length. lia. }
        rewrite Hrd. cbn [bind].
        rewrite wr_in_range by (rewrite flat_length; lia).
        cbn [bind].
        replace (Z.to_nat (r * 3 + 2)) with (3 * Z.to_nat r + 2)%nat by lia.
        rewrite upd_flat.
        rewrite <- (bump_length es (Z.to_nat r) (to_size_t dm (count + 1))).
        destruct (IH (bump es (Z.to_nat r) (to_size_t dm (count + 1)))) as [es' [Hres Hall]].
        -- exact Hids'.
        -- clear -Hsmall. revert Hsmall. generalize (Z.to_nat r) as k.
           induction es as [|[[f s] c] es IHes]; intros k Hs; destruct k; cbn [bump];
             try exact Hs; inversion Hs; subst; constructor; auto.
        -- rewrite bump_length. cbn [length] in *. lia.
        -- exists es'. split; [exact Hres|].
           intros q Hq. apply Hall. rewrite bump_pairs.
           destruct Hq as [Hq|Hq]; [left; exact Hq|].
           cbn [adjacent_pairs] in Hq. destruct Hq as [<-|Hq]; [left; exact Hin|].
           right. exact Hq.
      * cbn [bind]. rewrite Z.eqb_refl.
        destruct (Z.of_nat (length es) <? MAX_TEXT_SIZE) eqn:Ecap;
          [|apply Z.ltb_ge in Ecap; cbn [length] in Hcap; lia].
        rewrite flat_snoc, (length_snoc es (to_size_t dm a, to_size_t dm b, 1)).
        unfold token_id in Ha, Hb.
        destruct (IH (es ++ [(to_size_t dm a, to_size_t dm b, 1)])) as [es' [Hres Hall]].
        -- exact Hids'.
        -- apply Forall_app. split; [exact Hsmall|]. constructor; [|constructor].
           cbn [small]. rewrite !to_size_t_small by lia. lia.
        -- rewrite length_app. cbn [length] in *. lia.
        -- exists es'. split; [exact Hres|].
           intros q Hq. apply Hall. rewrite map_app. cbn [map pair_of].
           rewrite !to_size_t_small by lia.
           rewrite !to_int_id by (unfold is_int; lia).
           destruct Hq as [Hq|Hq].
           ++ left. apply in_or_app. left. exact Hq.
           ++ cbn [adjacent_pairs] in Hq. destruct Hq as [<-|Hq].
              ** left. apply in_or_app. right. left. reflexivity.
              ** right. exact Hq.
Qed.

Lemma token_counts_complete ids :
  Forall token_id ids ->
  1 <= Z.of_nat (length ids) <= MAX_TEXT_SIZE + 1 ->
  exists es,
    token_counts dm ids = Returns (flat es, Z.of_nat (length es)) /\
    forall q, In q (map pair_of es) <-> In q (adjacent_pairs ids).
Proof.
  intros Hids Hlen.
  destruct ids as [|a ids]; [cbn in Hlen; lia|].
  destruct (token_counts_loop_complete (a :: ids) [] Hids) as [es [Hres Hall]].
  - constructor.
  - cbn [length] in *. lia.
  - exists es. unfold token_counts. split; [exact Hres|].
    intros q. split.
    + intros Hq.
      assert (Hint : Forall is_int (a :: ids)).
      { eapply Forall_impl; [|exact Hids]. apply token_id_is_int. }
      destruct (token_counts_sound (a :: ids) _ _ Hint Hres) as [es0 [Hflat [_ Hincl]]].
      apply Hincl. rewrite <- entries_flat, <- Hflat, entries_flat. exact Hq.
    + intros Hq. apply Hall. right. exact Hq.
Qed.

End Counting.

(** What the cast does to the counts where [size_t] is wider than [int]:
    no pair of token ids is ever found in the table, so every adjacent pair
    gets an entry of its own, with count 1. *)
Lemma token_counts_loop_LP64 ids :
  forall es,
    Forall token_id ids ->
    Forall small es ->
    Z.of_nat (length es) + Z.of_nat (length ids) <= MAX_TEXT_SIZE + 1 ->
    token_counts_loop LP64 ids (flat es) (Z.of_nat (length es)) =
    Returns (flat (es ++ map once (adjacent_pairs ids)),
             Z.of_nat (length (es ++ map once (adjacent_pairs ids)))).
Proof.
  induction ids as [|a ids IH]; intros es Hids Hsmall Hcap.
  - cbn. rewrite app_nil_r. reflexivity.
  - destruct ids as [|b rest].
    + cbn. rewrite app_nil_r. reflexivity.
    + rewrite token_counts_loop_step.
      change (adjacent_pairs (a :: b :: rest))
        with ({| first := a; second := b |} :: adjacent_pairs (b :: rest)).
      inversion Hids as [|? ? Ha Hids']; subst.
      pose proof Hids' as Hids''. inversion Hids'' as [|? ? Hb _]; subst.
      unfold find_pair_index.
      rewrite find_pair_loop_index_of
        by (pose proof (cast_merges_length LP64 es); lia).
      rewrite Z.sub_0_r, Nat2Z.id.
      destruct (index_of {| first := a; second := b |}
                  (firstn (length es) (cast_merges LP64 (flat es)))) as [r|] eqn:E.
      * destruct (table_hit LP64 es {| first := a; second := b |} r Hsmall Ha Hb E)
          as [_ [_ Hdm]]. discriminate.
      * cbn [bind]. rewrite Z.eqb_refl.
        destruct (Z.of_nat (length es) <? MAX_TEXT_SIZE) eqn:Ecap;
          [|apply Z.ltb_ge in Ecap; cbn [length] in Hcap; lia].
        unfold token_id in Ha, Hb.
        rewrite !to_size_t_small by lia.
        rewrite flat_snoc, (length_snoc es (a, b, 1)).
        rewrite IH.
        -- cbn [map once first second]. rewrite <- app_assoc. reflexivity.
        -- exact Hids'.
        -- apply Forall_app. split; [exact Hsmall|]. constructor; [|constructor].
           cbn [small]. lia.
        -- rewrite length_app. cbn [length] in *. lia.
Qed.

(** * The selection loops *)

Lemma best_count_flat es :
  forall max_count best_pair,
    let r := best_count (flat es) max_count best_pair in
    (fst r = max_count /\ snd r = best_pair) \/
    (max_count < fst r /\ In (snd r) (map pair_of es)).
Proof.
  induction es as [|[[f s] c] es IH]; intros max_count best_pair.
  - left. split; reflexivity.
  - cbn [flat best_count map pair_of]. cbv zeta.
    destruct (max_count <? c) eqn:E.
    + apply Z.ltb_lt in E.
      destruct (IH c {| first := to_int f; second := to_int s |}) as [[H1 H2]|[H1 H2]].
      * right. rewrite H1, H2. split; [exact E|]. left. reflexivity.
      * right. split; [lia|]. right. exact H2.
    + destruct (IH max_count best_pair) as [H|[H1 H2]].
      * left. exact H.
      * right. split; [exact H1|]. right. exact H2.
Qed.

Lemma best_rank_no_merges t es best_pair best_idx min_merge_idx :
  num_merges t = 0 ->
  best_rank t (flat es) best_pair best_idx min_merge_idx = Returns (best_pair, best_idx).
Proof.
  intros H0. induction es as [|[[f s] c] es IH]; [reflexivity|].
  cbn [flat best_rank]. cbv zeta. unfold find_pair_index. rewrite H0.
  destruct (merges t); cbn [find_pair_loop bind Z.ltb Z.compare andb]; exact IH.
Qed.

Lemma rank_Some t p r :
  rank t p = Some r ->
  0 <= r < Z.of_nat (length (merges t)) /\
  exists m, nth_error (merge_table t) (Z.to_nat r) = Some m /\ pair m = p.
Proof.
  unfold rank, merge_table. intros H. apply index_of_Some in H. exact H.
Qed.

Lemma best_rank_spec t es :
  num_merges t = Z.of_nat (length (merges t)) ->
  forall best_pair best_idx min_merge_idx,
  exists best_pair' best_idx',
    best_rank t (flat es) best_pair best_idx min_merge_idx =
      Returns (best_pair', best_idx') /\
    ((best_pair' = best_pair /\ best_idx' = best_idx /\
      forall q k, In q (map pair_of es) -> rank t q = Some k -> min_merge_idx <= k) \/
     (In best_pair' (map pair_of es) /\ rank t best_pair' = Some best_idx' /\
      best_idx' < min_merge_idx /\
      forall q k, In q (map pair_of es) -> rank t q = Some k -> best_idx' <= k)).
Proof.
  intros Hok. induction es as [|[[f s] c] es IH]; intros bp bi mn.
  - exists bp, bi. split; [reflexivity|]. left. repeat split. intros q k [].
  - cbn [flat best_rank map pair_of]. cbv zeta.
    set (p := {| first := to_int f; second := to_int s |}).
    rewrite find_pair_index_rank by exact Hok. cbn [bind].
    destruct (rank t p) as [r|] eqn:Er.
    + destruct (rank_Some _ _ _ Er) as [Hr _].
      destruct (r <? num_merges t) eqn:E1; [|apply Z.ltb_ge in E1; lia].
      destruct (r <? mn) eqn:E2; cbn [andb].
      * apply Z.ltb_lt in E2.
        destruct (IH p r r) as [bp' [bi' [Hres [[H1 [H2 H3]]|[H1 [H2 [H3 H4]]]]]]];
          exists bp', bi'; (split; [exact Hres|]); right.
        -- subst bp' bi'. split; [left; reflexivity|]. split; [exact Er|].
           split; [exact E2|]. intros q k [<-|Hq] Hk; [|eapply H3; eauto].
           rewrite Er in Hk. injection Hk as <-. lia.
        -- split; [right; exact H1|]. split; [exact H2|]. split; [lia|].
           intros q k [<-|Hq] Hk; [|eapply H4; eauto].
           rewrite Er in Hk. injection Hk as <-. lia.
      * apply Z.ltb_ge in E2.
        destruct (IH bp bi mn) as [bp' [bi' [Hres [[H1 [H2 H3]]|[H1 [H2 [H3 H4]]]]]]];
          exists bp', bi'; (split; [exact Hres|]).
        -- left. split; [exact H1|]. split; [exact H2|].
           intros q k [<-|Hq] Hk; [|eapply H3; eauto].
           rewrite Er in Hk. injection Hk as <-. lia.
        -- right. split; [right; exact H1|]. split; [exact H2|]. split; [exact H3|].
           intros q k [<-|Hq] Hk; [|eapply H4; eauto].
           rewrite Er in Hk. injection Hk as <-. lia.
    + rewrite Z.ltb_irrefl. cbn [andb].
      destruct (IH bp bi mn) as [bp' [bi' [Hres [[H1 [H2 H3]]|[H1 [H2 [H3 H4]]]]]]];
        exists bp', bi'; (split; [exact Hres|]).
      * left. split; [exact H1|]. split; [exact H2|].
        intros q k [<-|Hq] Hk; [congruence|eapply H3; eauto].
      * right. split; [right; exact H1|]. split; [exact H2|]. split; [exact H3|].
        intros q k [<-|Hq] Hk; [congruence|eapply H4; eauto].
Qed.

(** * More on merge *)

Lemma merge_scan_step a b rest p idx :
  merge_scan (a :: b :: rest) p idx =
  if (a =? first p) && (b =? second p)
  then idx :: merge_scan rest p idx
  else a :: merge_scan (b :: rest) p idx.
Proof. reflexivity. Qed.

Lemma adjacent_pairs_step a b rest :
  adjacent_pairs (a :: b :: rest) =
  {| first := a; second := b |} :: adjacent_pairs (b :: rest).
Proof. reflexivity. Qed.

Lemma merge_scan_shorter ids p idx :
  In p (adjacent_pairs ids) ->
  (length (merge_scan ids p idx) < length ids)%nat.
Proof.
  induction ids as [|a ids IH]; [intros []|].
  destruct ids as [|b rest]; [intros []|].
  rewrite adjacent_pairs_step, merge_scan_step. intros Hin.
  destruct ((a =? first p) && (b =? second p)) eqn:E.
  - pose proof (merge_scan_length rest p idx). cbn [length]. lia.
  - destruct Hin as [<-|Hin].
    + cbn [first second] in E. rewrite !Z.eqb_refl in E. discriminate.
    + specialize (IH Hin). cbn [length] in *. lia.
Qed.

Lemma merge_scan_Forall (P : Z -> Prop) ids p idx :
  Forall P ids -> P idx -> Forall P (merge_scan ids p idx).
Proof.
  intros Hids Hidx.
  remember (length ids) as n eqn:Hn.
  revert ids Hn Hids. induction n as [n IH] using lt_wf_ind. intros ids Hn Hids.
  destruct ids as [|a [|b rest]]; [constructor | exact Hids |].
  rewrite merge_scan_step.
  inversion Hids as [|? ? Ha Hids']; subst.
  inversion Hids' as [|? ? Hb Hrest]; subst.
  destruct ((a =? first p) && (b =? second p)).
  - constructor; [exact Hidx|].
    apply (IH (length rest)); [cbn [length]; lia | reflexivity | exact Hrest].
  - constructor; [exact Ha|].
    apply (IH (length (b :: rest))); [cbn [length]; lia | reflexivity | exact Hids'].
Qed.

Lemma merge_Returns ids p idx out :
  merge ids p idx = Returns out ->
  out = merge_scan ids p idx /\ Z.of_nat (length out) <= MAX_TEXT_SIZE.
Proof.
  unfold merge. cbv zeta.
  destruct (Z.of_nat (length (merge_scan ids p idx)) <=? MAX_TEXT_SIZE) eqn:E; [|discriminate].
  intros H. injection H as <-. apply Z.leb_le in E. auto.
Qed.

Lemma merge_in_capacity ids p idx :
  Z.of_nat (length ids) <= MAX_TEXT_SIZE ->
  merge ids p idx = Returns (merge_scan ids p idx).
Proof.
  intros H. unfold merge. cbv zeta.
  pose proof (merge_scan_length ids p idx).
  destruct (Z.of_nat (length (merge_scan ids p idx)) <=? MAX_TEXT_SIZE) eqn:E; [reflexivity|].
  apply Z.leb_gt in E. lia.
Qed.

(** * Text bytes *)

Lemma c_chars_bytes text : Forall (fun z => 0 < z < 256) (c_chars text).
Proof.
  induction text as [|c text IH]; [constructor|].
  cbn [c_chars]. destruct (N_of_ascii c =? 0)%N eqn:E; [constructor|].
  apply N.eqb_neq in E. pose proof (N_ascii_bounded c).
  constructor; [lia | exact IH].
Qed.

Lemma c_chars_token_ids text : Forall token_id (c_chars text).
Proof.
  eapply Forall_impl; [|apply c_chars_bytes].
  unfold token_id. intros z Hz. cbn beta in Hz. lia.
Qed.

Lemma adjacent_pairs_In ids p :
  In p (adjacent_pairs ids) -> In (first p) ids /\ In (second p) ids.
Proof.
  induction ids as [|a ids IH]; [intros []|].
  destruct ids as [|b rest]; [intros []|].
  rewrite adjacent_pairs_step. intros [<-|H].
  - cbn [first second]. split; [left; reflexivity | right; left; reflexivity].
  - destruct (IH H) as [H1 H2]. split; right; assumption.
Qed.

(** * encode *)

Section Encoder.

Variable dm : data_model.
Variable t : BasicTokenizer.
Hypothesis model_in_place : model_ok dm t.

(** One iteration of the loop of [encode] on a sequence of token ids
    within the capacity: the [break] is taken when no adjacent pair has a
    rank; otherwise the pair of lowest rank is merged into the id recorded
    with it. *)
Lemma encode_step_spec ids :
  Forall token_id ids ->
  2 <= Z.of_nat (length ids) <= MAX_TEXT_SIZE ->
  (encode_step dm t ids = Returns None /\
   forall p, In p (adjacent_pairs ids) -> rank t p = None) \/
  (exists p r m,
     lowest_ranked t ids p r /\
     nth_error (merge_table t) (Z.to_nat r) = Some m /\
     encode_step dm t ids = Returns (Some (merge_scan ids p (idx m)))).
Proof.
  intros Hids Hlen. destruct model_in_place as [Hnum [Hmax Hids_ok]].
  destruct (token_counts_complete dm ids Hids) as [es [Hres Hiff]].
  { unfold MAX_TEXT_SIZE in *. lia. }
  unfold encode_step. rewrite Hres. cbn [bind]. rewrite firstn_flat.
  destruct (best_rank_spec t es Hnum {| first := -1; second := -1 |} 0 (SIZE_MAX dm))
    as [bp [bi [Hbr [[H1 [H2 H3]]|[H1 [H2 [H3 H4]]]]]]]; rewrite Hbr; cbn [bind].
  - left. subst bp. cbn [first]. rewrite Z.eqb_refl. split; [reflexivity|].
    intros p Hp. destruct (rank t p) as [k|] eqn:Ek; [|reflexivity].
    exfalso. apply Hiff in Hp. specialize (H3 p k Hp Ek).
    apply rank_Some in Ek. lia.
  - right. apply Hiff in H1.
    destruct (rank_Some _ _ _ H2) as [Hr [m [Hm Hp]]].
    pose proof Hm as Hm'. unfold merge_table in Hm'.
    exists bp, bi, m. split; [|split; [exact Hm|]].
    + split; [exact H1|]. split; [exact H2|].
      intros q k Hq Hk. apply Hiff in Hq. eapply H4; eauto.
    + destruct (adjacent_pairs_In _ _ H1) as [Hf _].
      rewrite Forall_forall in Hids. specialize (Hids _ Hf). unfold token_id in Hids.
      destruct (first bp =? -1) eqn:E; [apply Z.eqb_eq in E; lia|].
      assert (Hrd : rd (merges t) bi = Returns m).
      { apply rd_nth_error. split; [lia | exact Hm']. }
      rewrite Hrd. cbn [bind].
      rewrite merge_in_capacity by lia. reflexivity.
Qed.

Lemma adjacent_pairs_short ids :
  Z.of_nat (length ids) < 2 -> adjacent_pairs ids = [].
Proof.
  destruct ids as [|a [|b rest]]; cbn [length]; try reflexivity; lia.
Qed.

(** The fuel handed to the loop is enough: what [encode_loop] returns is
    what the Encoder of the specification reaches. *)
Lemma encode_fuel_enough :
  forall fuel ids,
    Forall token_id ids ->
    (length ids <= fuel)%nat ->
    Z.of_nat (length ids) <= MAX_TEXT_SIZE ->
    exists out, encode_loop dm fuel t ids = Returns out /\ spec_encode t ids out.
Proof.
  induction fuel as [|fuel IH]; intros ids Hids Hfuel Hlen.
  - exists ids. split; [reflexivity|]. apply spec_encode_stop.
    rewrite adjacent_pairs_short by lia. intros p [].
  - cbn [encode_loop].
    destruct (2 <=? Z.of_nat (length ids)) eqn:E.
    + apply Z.leb_le in E.
      destruct (encode_step_spec ids Hids) as [[Hstep Hnone]|[p [r [m [Hlow [Hm Hstep]]]]]];
        [lia | | ]; rewrite Hstep; cbn [bind].
      * exists ids. split; [reflexivity|]. apply spec_encode_stop. exact Hnone.
      * destruct Hlow as [Hin Hrest].
        pose proof (merge_scan_shorter ids p (idx m) Hin) as Hshort.
        destruct model_in_place as [Hnum [Hmax Hnew]].
        assert (Htok : token_id (idx m)).
        { rewrite Forall_forall in Hnew. apply Hnew. eapply nth_error_In. exact Hm. }
        destruct (IH (merge_scan ids p (idx m))) as [out [Hout Hspec]].
        -- apply merge_scan_Forall; assumption.
        -- lia.
        -- lia.
        -- exists out. split; [exact Hout|].
           eapply spec_encode_merge.
           ++ split; [exact Hin | exact Hrest].
           ++ exact Hm.
           ++ apply merge_scan_spec_apply.
           ++ exact Hspec.
    + apply Z.leb_gt in E. exists ids. split; [reflexivity|].
      apply spec_encode_stop. rewrite adjacent_pairs_short by lia. intros p [].
Qed.

End Encoder.

Lemma best_rank_result t es :
  forall best_pair best_idx min_merge_idx best_pair' best_idx',
    best_rank t (flat es) best_pair best_idx min_merge_idx =
      Returns (best_pair', best_idx') ->
    best_pair' = best_pair \/ In best_pair' (map pair_of es).
Proof.
  induction es as [|[[f s] c] es IH]; intros bp bi mn bp' bi' H.
  - cbn in H. injection H as <- <-. left. reflexivity.
  - cbn [flat best_rank] in H. cbv zeta in H.
    returned H as k eqn:F.
    destruct ((k <? num_merges t) && (k <? mn)); apply IH in H.
    + destruct H as [-> | H]; right; [left; reflexivity | right; exact H].
    + destruct H as [-> | H]; [left; reflexivity | right; right; exact H].
Qed.

(** An iteration of the loop of [encode] that does not [break] leaves a
    shorter sequence. *)
Lemma encode_step_shortens dm t ids ids' :
  Forall is_int ids ->
  encode_step dm t ids = Returns (Some ids') ->
  (length ids' < length ids)%nat /\
  (Forall (fun m => is_int (idx m)) (merges t) -> Forall is_int ids').
Proof.
  intros Hint H. unfold encode_step in H.
  returned H as [cells n_pairs] eqn:Htc.
  destruct (token_counts_sound dm ids cells n_pairs Hint Htc) as [es [-> [-> Hincl]]].
  rewrite firstn_flat in H.
  returned H as [bp bi] eqn:Hbr.
  apply best_rank_result in Hbr.
  destruct (first bp =? -1) eqn:E; [discriminate|].
  destruct Hbr as [-> | Hin]; [cbn in E; discriminate|].
  returned H as m eqn:Hrd.
  returned H as out eqn:Hm.
  injection H as <-.
  apply merge_Returns in Hm. destruct Hm as [-> _].
  split.
  - apply merge_scan_shorter. apply Hincl. exact Hin.
  - intros Hidx. apply merge_scan_Forall; [exact Hint|].
    rewrite Forall_forall in Hidx. apply Hidx.
    apply rd_nth_error in Hrd. destruct Hrd as [_ Hn].
    eapply nth_error_In. exact Hn.
Qed.

(** The loop of [encode] needs no more iterations than the sequence has
    ids: further fuel changes nothing, whatever the tokenizer. *)
Lemma encode_loop_more_fuel dm t :
  Forall (fun m => is_int (idx m)) (merges t) ->
  forall fuel extra ids,
    Forall is_int ids ->
    (length ids <= fuel)%nat ->
    encode_loop dm (fuel + extra) t ids = encode_loop dm fuel t ids.
Proof.
  intros Hidx. induction fuel as [|fuel IH]; intros extra ids Hint Hlen.
  - destruct ids; [|cbn [length] in Hlen; lia].
    destruct extra; reflexivity.
  - cbn [Nat.add encode_loop].
    destruct (2 <=? Z.of_nat (length ids)); [|reflexivity].
    destruct (encode_step dm t ids) as [[ids'|]|] eqn:Hstep; cbn [bind]; try reflexivity.
    destruct (encode_step_shortens dm t ids ids' Hint Hstep) as [Hshort Hint'].
    apply IH; [auto | lia].
Qed.

(** * train *)

Lemma realloc_length n cells :
  0 <= n -> length (realloc n cells) = Z.to_nat n.
Proof.
  intros H. unfold realloc. rewrite length_app, length_firstn, repeat_length. lia.
Qed.

Lemma upd_grown {A} (d x : A) :
  forall v n,
    (n <= length v)%nat ->
    upd (firstn (S n) v ++ repeat d (S n - length v)) n x = firstn n v ++ [x].
Proof.
  induction v as [|y v IH]; intros n Hn.
  - cbn [length] in Hn. assert (n = 0%nat) as -> by lia. reflexivity.
  - destruct n as [|n].
    + reflexivity.
    + cbn [length] in Hn.
      change (upd (firstn (S (S n)) (y :: v) ++ repeat d (S (S n) - length (y :: v))) (S n) x)
        with (y :: upd (firstn (S n) v ++ repeat d (S n - length v)) n x).
      rewrite IH by lia. reflexivity.
Qed.

Lemma realloc_upd v n x :
  0 <= n <= Z.of_nat (length v) ->
  upd (realloc (n + 1) v) (Z.to_nat n) x = firstn (Z.to_nat n) v ++ [x].
Proof.
  intros H. unfold realloc.
  replace (Z.to_nat (n + 1)) with (S (Z.to_nat n)) by lia.
  apply upd_grown. lia.
Qed.

Lemma Forall_firstn_of {A} (P : A -> Prop) n l : Forall P l -> Forall P (firstn n l).
Proof.
  intros H. rewrite <- (firstn_skipn n l) in H. apply Forall_app in H. tauto.
Qed.

Lemma vocab_ok_length v : vocab_ok v -> 256 <= Z.of_nat (length v).
Proof.
  intros [H _]. apply (f_equal (@length _)) in H.
  rewrite length_firstn in H. vm_compute (length (vocab create_tokenizer)) in H. lia.
Qed.

Lemma vocab_ok_grown v i x :
  vocab_ok v -> 0 <= i -> 256 + i <= Z.of_nat (length v) -> x <> [] ->
  vocab_ok (firstn (Z.to_nat (256 + i)) v ++ [x]).
Proof.
  intros [Hbase Hall] Hi Hlen Hx. split.
  - rewrite firstn_app, firstn_firstn, length_firstn.
    replace (Nat.min 256 (Z.to_nat (256 + i))) with 256%nat by lia.
    replace (256 - Nat.min (Z.to_nat (256 + i)) (length v))%nat with 0%nat by lia.
    cbn [firstn]. rewrite app_nil_r. exact Hbase.
  - apply Forall_app. split.
    + apply Forall_firstn_of. exact Hall.
    + constructor; [exact Hx | constructor].
Qed.

(** The blocks [malloc] hands back. *)
Lemma malloc_cells_nonneg dm request cell :
  0 < cell -> 0 <= malloc_cells dm request cell.
Proof.
  intros Hc. unfold malloc_cells. cbv zeta.
  destruct (to_size_t dm request <=? PTRDIFF_MAX dm); [|lia].
  apply Z.div_pos; [|exact Hc].
  unfold to_size_t. apply Z.mod_pos_bound. destruct dm; reflexivity.
Qed.

Lemma malloc_cells_exact dm n cell :
  0 < cell -> 0 <= n -> n * cell <= PTRDIFF_MAX dm ->
  malloc_cells dm (n * cell) cell = n.
Proof.
  intros Hc Hn Hfit. unfold malloc_cells. cbv zeta.
  assert (Hsmall : to_size_t dm (n * cell) = n * cell).
  { unfold to_size_t. apply Z.mod_small.
    unfold PTRDIFF_MAX in Hfit. destruct dm; cbn [size_bits] in *; nia. }
  rewrite Hsmall.
  destruct (n * cell <=? PTRDIFF_MAX dm) eqn:E; [|apply Z.leb_gt in E; lia].
  apply Z.div_mul. lia.
Qed.

Section Trainer.

Variable dm : data_model.

(** A call of [train] that returns has run its loop from a fresh array of
    merges, within the cells of that array. *)
Lemma train_Returns t text target t' :
  train dm t text target = Returns t' ->
  exists ids,
    train_loop dm (Z.to_nat (to_size_t dm (target - INITIAL_VOCAB_SIZE))) 0 (c_chars text)
      {| merges := [];
         num_merges := num_merges t;
         vocab := vocab t;
         vocab_size := vocab_size t |} = Returns (ids, t') /\
    Z.of_nat (length (merges t')) <=
      malloc_cells dm (to_size_t dm (target - INITIAL_VOCAB_SIZE) * sizeof_Merge) sizeof_Merge /\
    Z.of_nat (length (c_chars text)) <=
      malloc_cells dm (Z.of_nat (length (c_chars text)) * sizeof_int) sizeof_int.
Proof.
  intros H. unfold train in H. cbv zeta in H.
  destruct (_ <? _) eqn:Eids in H; [discriminate|]. apply Z.ltb_ge in Eids.
  returned H as [ids r] eqn:E.
  destruct (_ <=? _) eqn:Ecells in H; [|discriminate]. apply Z.leb_le in Ecells.
  injection H as <-. exists ids. auto.
Qed.

(** Conversely, a loop that returns within the cells of its arrays makes
    the call return. *)
Lemma train_of_loop t text target ids t' :
  Z.of_nat (length (c_chars text)) * sizeof_int <= PTRDIFF_MAX dm ->
  train_loop dm (Z.to_nat (to_size_t dm (target - INITIAL_VOCAB_SIZE))) 0 (c_chars text)
    {| merges := [];
       num_merges := num_merges t;
       vocab := vocab t;
       vocab_size := vocab_size t |} = Returns (ids, t') ->
  Z.of_nat (length (merges t')) <=
    malloc_cells dm (to_size_t dm (target - INITIAL_VOCAB_SIZE) * sizeof_Merge) sizeof_Merge ->
  train dm t text target = Returns t'.
Proof.
  intros Hfit Hloop Hcells. unfold train. cbv zeta.
  rewrite malloc_cells_exact by (unfold sizeof_int in *; lia).
  rewrite Z.ltb_irrefl, Hloop. cbn [bind].
  destruct (_ <=? _) eqn:E; [reflexivity | apply Z.leb_gt in E; lia].
Qed.

Lemma train_of_undefined_loop t text target :
  train_loop dm (Z.to_nat (to_size_t dm (target - INITIAL_VOCAB_SIZE))) 0 (c_chars text)
    {| merges := [];
       num_merges := num_merges t;
       vocab := vocab t;
       vocab_size := vocab_size t |} = Undefined ->
  train dm t text target = Undefined.
Proof.
  intros Hloop. unfold train. cbv zeta.
  destruct (_ <? _); [reflexivity|]. rewrite Hloop. reflexivity.
Qed.

(** One iteration of the loop of [train] on a sequence of token ids:
    either it leaves the loop, or it merges a pair present in the sequence
    into the id [256 + i] and goes on. *)
Lemma train_loop_step n i ids t r :
  Forall token_id ids ->
  0 <= i ->
  (i = 0 \/ Z.of_nat (length ids) + i <= MAX_TEXT_SIZE + 1) ->
  train_loop dm (S n) i ids t = Returns r ->
  r = (ids, t) \/
  exists best_pair,
    In best_pair (adjacent_pairs ids) /\
    Z.of_nat (length (merge_scan ids best_pair (256 + i))) <= MAX_TEXT_SIZE /\
    train_loop dm n (i + 1) (merge_scan ids best_pair (256 + i))
      {| merges := merges t ++ [{| pair := best_pair; idx := 256 + i |}];
         num_merges := num_merges t;
         vocab := upd (realloc (256 + i + 1) (vocab t)) (Z.to_nat (256 + i))
                      [to_uchar (first best_pair); to_uchar (second best_pair)];
         vocab_size := vocab_size t |} = Returns r.
Proof.
  intros Hids Hi Hbound H.
  assert (Hi' : i <= MAX_TEXT_SIZE + 1) by (unfold MAX_TEXT_SIZE in *; lia).
  unfold MAX_TEXT_SIZE in Hi'.
  cbn [train_loop] in H.
  returned H as [cells n_pairs] eqn:Htc.
  assert (Hint : Forall is_int ids).
  { eapply Forall_impl; [|exact Hids]. apply token_id_is_int. }
  destruct (token_counts_sound dm ids cells n_pairs Hint Htc) as [es [-> [-> Hincl]]].
  rewrite firstn_flat in H.
  pose proof (best_count_flat es 0 {| first := 0; second := 0 |}) as Hbest.
  destruct (best_count (flat es) 0 {| first := 0; second := 0 |}) as [max_count best_pair].
  cbn [fst snd] in Hbest.
  destruct (max_count =? 0) eqn:E.
  - left. injection H as <-. reflexivity.
  - right. apply Z.eqb_neq in E.
    destruct Hbest as [[Hm _]|[_ Hin]]; [lia|].
    unfold INITIAL_VOCAB_SIZE in H.
    rewrite !to_size_t_small in H by lia.
    rewrite to_int_id in H by (unfold is_int; lia).
    returned H as ids' eqn:Hm.
    apply merge_Returns in Hm. destruct Hm as [-> Hlen].
    rewrite wr_in_range in H by (rewrite realloc_length; lia).
    cbn [bind] in H.
    exists best_pair. split; [apply Hincl; exact Hin|]. split; [exact Hlen|]. exact H.
Qed.

(** [train] assigns neither [num_merges] nor the first 256 entries of the
    vocabulary, and leaves a byte in every entry. *)
Lemma train_loop_keeps n :
  forall i ids t r,
    Forall token_id ids ->
    0 <= i ->
    (i = 0 \/ Z.of_nat (length ids) + i <= MAX_TEXT_SIZE + 1) ->
    vocab_ok (vocab t) ->
    256 + i <= Z.of_nat (length (vocab t)) ->
    train_loop dm n i ids t = Returns r ->
    num_merges (snd r) = num_merges t /\ vocab_ok (vocab (snd r)).
Proof.
  induction n as [|n IH]; intros i ids t r Hids Hi Hbound Hv Hlen H.
  - cbn in H. injection H as <-. auto.
  - apply train_loop_step in H; try assumption.
    destruct H as [->|[bp [Hin [Hcap H]]]]; [auto|].
    rewrite realloc_upd in H by lia.
    apply IH in H.
    + cbn [num_merges vocab] in H. exact H.
    + apply merge_scan_Forall; [exact Hids|].
      unfold token_id. unfold MAX_TEXT_SIZE in *. lia.
    + lia.
    + right. pose proof (merge_scan_shorter ids bp (256 + i) Hin).
      unfold MAX_TEXT_SIZE in *. lia.
    + cbn [vocab]. apply vocab_ok_grown; try assumption. discriminate.
    + cbn [vocab]. rewrite length_app, length_firstn. cbn [length]. lia.
Qed.

Lemma create_tokenizer_vocab_ok : vocab_ok (vocab create_tokenizer).
Proof.
  split.
  - apply firstn_all2. vm_compute. lia.
  - cbn [vocab create_tokenizer]. apply Forall_forall. intros e He.
    apply in_map_iff in He. destruct He as [k [<- _]]. discriminate.
Qed.

Lemma train_keeps t text target t' :
  vocab_ok (vocab t) ->
  train dm t text target = Returns t' ->
  num_merges t' = num_merges t /\ vocab_ok (vocab t').
Proof.
  intros Hv H. apply train_Returns in H. destruct H as [ids [E _]].
  apply train_loop_keeps in E.
  - cbn [snd num_merges] in E. exact E.
  - apply c_chars_token_ids.
  - lia.
  - left. reflexivity.
  - exact Hv.
  - cbn [vocab]. pose proof (vocab_ok_length _ Hv). lia.
Qed.

Lemma reachable_keeps t :
  reachable dm t -> num_merges t = 0 /\ vocab_ok (vocab t).
Proof.
  induction 1 as [|t text target t' Hr [IH1 IH2] Ht].
  - split; [reflexivity | apply create_tokenizer_vocab_ok].
  - destruct (train_keeps t text target t' IH2 Ht) as [H1 H2].
    split; [congruence | exact H2].
Qed.

Lemma trained_reachable t : trained dm t -> reachable dm t.
Proof.
  intros [t0 [text [target [Hr Ht]]]]. eapply reachable_train; eauto.
Qed.

(** The memory [train] leaves: the rules are numbered from 256 on in the
    order they were learned, and, once a merge has been made, the vocabulary
    is its first 256 entries followed by the two bytes of each rule. *)
Lemma train_loop_layout base n :
  forall i ids t r,
    Forall token_id ids ->
    (i = 0 \/ Z.of_nat (length ids) + i <= MAX_TEXT_SIZE + 1) ->
    length base = 256%nat ->
    firstn 256 (vocab t) = base ->
    Z.of_nat (length (merges t)) = i ->
    (i = 0 \/ vocab t = base ++ map entry_of (merges t)) ->
    (forall k m, nth_error (merges t) k = Some m -> idx m = 256 + Z.of_nat k) ->
    train_loop dm n i ids t = Returns r ->
    (snd r = t \/ vocab (snd r) = base ++ map entry_of (merges (snd r))) /\
    (forall k m, nth_error (merges (snd r)) k = Some m -> idx m = 256 + Z.of_nat k).
Proof.
  induction n as [|n IH]; intros i ids t r Hids Hbound Hbase Hfirst Hcells Hvocab Hnum H.
  - cbn in H. injection H as <-. split; [left; reflexivity | exact Hnum].
  - apply train_loop_step in H; try assumption; [|lia].
    destruct H as [->|[bp [Hin [Hcap H]]]]; [split; [left; reflexivity | exact Hnum]|].
    assert (Hlen : Z.of_nat (length (vocab t)) >= 256 + i).
    { destruct Hvocab as [-> | ->].
      - apply (f_equal (@length _)) in Hfirst. rewrite length_firstn in Hfirst. lia.
      - rewrite length_app, length_map. lia. }
    rewrite realloc_upd in H by lia.
    set (m := {| pair := bp; idx := 256 + i |}) in *.
    assert (Hnew : firstn (Z.to_nat (256 + i)) (vocab t) ++
                     [[to_uchar (first bp); to_uchar (second bp)]] =
                   base ++ map entry_of (merges t ++ [m])).
    { rewrite map_app, app_assoc. cbn [map]. f_equal.
      destruct Hvocab as [-> | Hv].
      - destruct (merges t); [|cbn [length] in Hcells; lia].
        cbn [map]. rewrite app_nil_r. exact Hfirst.
      - rewrite Hv. apply firstn_all2. rewrite length_app, length_map. lia. }
    rewrite Hnew in H.
    apply IH in H.
    + cbn [merges vocab] in H. destruct H as [H1 H2]. split; [|exact H2].
      right. destruct H1 as [-> | H1]; [reflexivity | exact H1].
    + apply merge_scan_Forall; [exact Hids|].
      unfold token_id. unfold MAX_TEXT_SIZE in *. lia.
    + right. pose proof (merge_scan_shorter ids bp (256 + i) Hin).
      unfold MAX_TEXT_SIZE in *. lia.
    + exact Hbase.
    + cbn [vocab]. rewrite firstn_app, Hbase, Nat.sub_diag, firstn_O, app_nil_r.
      apply firstn_all2. lia.
    + cbn [merges]. rewrite length_app. cbn [length]. lia.
    + right. reflexivity.
    + cbn [merges]. intros k m' Hk.
      destruct (Nat.lt_ge_cases k (length (merges t))) as [Hlt|Hge].
      * rewrite nth_error_app1 in Hk by exact Hlt. apply Hnum. exact Hk.
      * rewrite nth_error_app2 in Hk by exact Hge.
        destruct (k - length (merges t))%nat as [|j] eqn:Ej.
        -- cbn in Hk. injection Hk as <-. unfold m. cbn [idx]. lia.
        -- destruct j; discriminate.
Qed.

Lemma train_layout t text target t' :
  vocab_ok (vocab t) ->
  train dm t text target = Returns t' ->
  ((merges t' = [] /\ vocab t' = vocab t) \/
   vocab t' = firstn 256 (vocab t) ++ map entry_of (merges t')) /\
  (forall k m, nth_error (merges t') k = Some m -> idx m = 256 + Z.of_nat k).
Proof.
  intros Hv H. apply train_Returns in H. destruct H as [ids [E _]].
  apply (train_loop_layout (firstn 256 (vocab t))) in E.
  - cbn [snd] in E. destruct E as [[-> | E1] E2]; auto.
  - apply c_chars_token_ids.
  - left. reflexivity.
  - rewrite length_firstn. pose proof (vocab_ok_length _ Hv). lia.
  - reflexivity.
  - reflexivity.
  - left. reflexivity.
  - intros [|k] m Hk; discriminate.
Qed.

End Trainer.

(** * decode *)

Lemma base_entry v id : vocab_ok v -> 0 <= id < 256 -> rd v id = Returns [id].
Proof.
  intros [Hbase _] Hid. apply rd_nth_error. split; [lia|].
  assert (H : nth_error (firstn 256 v) (Z.to_nat id) = Some [id]).
  { rewrite Hbase. cbn [vocab create_tokenizer].
    rewrite nth_error_map, nth_error_seq.
    destruct (Z.to_nat id <? Z.to_nat INITIAL_VOCAB_SIZE)%nat eqn:E.
    - cbn [option_map Nat.add]. unfold to_uchar.
      rewrite Z2Nat.id by lia. rewrite Z.mod_small by lia. reflexivity.
    - apply Nat.ltb_ge in E. unfold INITIAL_VOCAB_SIZE in E. lia. }
  rewrite nth_error_firstn in H.
  destruct (Z.to_nat id <? 256)%nat; [exact H | discriminate].
Qed.

Lemma decode_bytes t ids :
  vocab_ok (vocab t) ->
  Forall (fun z => 0 < z < 256) ids ->
  decode t ids = Returns ids.
Proof.
  intros Hv. induction 1 as [|id ids Hid Hids IH]; [reflexivity|].
  cbn [decode]. rewrite (base_entry _ id Hv) by lia. cbn [bind].
  unfold rd at 1. cbn [Z.ltb Z.compare Z.to_nat nth_error bind].
  rewrite IH. reflexivity.
Qed.

(** [decode] either finds every id in the vocabulary array and returns,
    or meets an id outside of it and has no meaning. *)
Lemma decode_cases t ids :
  Forall (fun e => e <> []) (vocab t) ->
  (Forall (in_vocab t) ids /\ exists text, decode t ids = Returns text) \/
  (Exists (fun id => ~ in_vocab t id) ids /\ decode t ids = Undefined).
Proof.
  intros Hv. induction ids as [|id ids IH].
  - left. split; [constructor | exists []; reflexivity].
  - cbn [decode].
    destruct (Z_lt_dec id 0) as [Hneg|Hpos].
    { right. split; [left; unfold in_vocab; lia|].
      rewrite rd_out_of_range by lia. reflexivity. }
    destruct (Z_lt_dec id (Z.of_nat (length (vocab t)))) as [Hin|Hout].
    + destruct (rd_in_range (vocab t) id) as [entry Hentry]; [lia|].
      rewrite Hentry. cbn [bind].
      assert (Hne : entry <> []).
      { rewrite Forall_forall in Hv. apply Hv.
        apply rd_nth_error in Hentry. destruct Hentry as [_ Hn].
        eapply nth_error_In. exact Hn. }
      destruct entry as [|c entry]; [congruence|].
      unfold rd at 1. cbn [Z.ltb Z.compare Z.to_nat nth_error bind].
      destruct IH as [[Hall [text Ht]]|[Hex Hu]].
      * left. split; [constructor; [unfold in_vocab; lia | exact Hall]|].
        rewrite Ht. cbn [bind]. eauto.
      * right. split; [right; exact Hex|]. rewrite Hu. reflexivity.
    + right. split; [left; unfold in_vocab; lia|].
      rewrite rd_out_of_range by lia. reflexivity.
Qed.

Lemma Forall_not_Exists {A} (P : A -> Prop) l :
  Forall P l -> Exists (fun x => ~ P x) l -> False.
Proof.
  intros HF HE. apply Exists_exists in HE. destruct HE as [x [Hx Hn]].
  rewrite Forall_forall in HF. auto.
Qed.

(** * The Encoder of the specification on a table of one rule *)

Lemma spec_encode_one_rule t :
  merges t = [{| pair := {| first := 97; second := 97 |}; idx := 256 |}] ->
  forall out, spec_encode t [97; 97; 97; 98] out <-> out = [256; 97; 98].
Proof.
  intros Hm.
  assert (Hrank : forall p, rank t p =
            if pair_eqb {| first := 97; second := 97 |} p then Some 0 else None).
  { intros p. unfold rank, merge_table. rewrite Hm. reflexivity. }
  assert (Hstop : spec_encode t [256; 97; 98] [256; 97; 98]).
  { apply spec_encode_stop. intros p Hp. rewrite Hrank.
    cbn in Hp. destruct Hp as [<- | [<- | []]]; reflexivity. }
  intros out. split.
  - intros H. inversion H as [ids Hnone | ids p r m ids' out' Hlow Hnth Happly Hrest]; subst.
    + specialize (Hnone {| first := 97; second := 97 |} (or_introl eq_refl)).
      rewrite Hrank in Hnone. discriminate.
    + destruct Hlow as [Hin [Hr _]]. rewrite Hrank in Hr.
      cbn in Hin. destruct Hin as [<- | [<- | [<- | []]]]; try discriminate.
      * injection Hr as <-. unfold merge_table in Hnth. rewrite Hm in Hnth.
        injection Hnth as <-. apply spec_apply_functional in Happly. cbn in Happly.
        subst ids'.
        inversion Hrest as [ids Hnone | ids p r m ids' out'' Hlow _ _ _]; subst;
          [reflexivity|].
        destruct Hlow as [Hin [Hr _]]. rewrite Hrank in Hr.
        cbn in Hin. destruct Hin as [<- | [<- | []]]; discriminate.
      * injection Hr as <-. unfold merge_table in Hnth. rewrite Hm in Hnth.
        injection Hnth as <-. apply spec_apply_functional in Happly. cbn in Happly.
        subst ids'.
        inversion Hrest as [ids Hnone | ids p r m ids' out'' Hlow _ _ _]; subst;
          [reflexivity|].
        destruct Hlow as [Hin [Hr _]]. rewrite Hrank in Hr.
        cbn in Hin. destruct Hin as [<- | [<- | []]]; discriminate.
  - intros ->.
    apply (spec_encode_merge t [97; 97; 97; 98] {| first := 97; second := 97 |} 0
             {| pair := {| first := 97; second := 97 |}; idx := 256 |} [256; 97; 98]).
    + split; [left; reflexivity|]. split; [rewrite Hrank; reflexivity|].
      intros q k _ Hk. apply rank_Some in Hk. lia.
    + unfold merge_table. rewrite Hm. reflexivity.
    + exact (merge_scan_spec_apply [97; 97; 97; 98] {| first := 97; second := 97 |} 256).
    + exact Hstop.
Qed.

(** * The claims *)

(** C1. For every tokenizer on which training has completed and every
    text within the working buffer, decoding the result of encoding the
    text gives the text back.  (The encoder of such a tokenizer emits raw
    byte ids only, [num_merges] being 0, and the first byte of the entry of
    a raw byte id is that byte.) *)
Theorem decode_encode_round_trip (dm : data_model) (t : BasicTokenizer) (text : string) :
  trained dm t ->
  Z.of_nat (length (c_chars text)) <= MAX_TEXT_SIZE ->
  exists ids,
    encode dm t text = Returns ids /\
    decode t ids = Returns (c_chars text).
Proof.
  intros Ht Hlen. apply trained_reachable in Ht.
  destruct (reachable_keeps dm t Ht) as [Hnum Hv].
  exists (c_chars text). split.
  - unfold encode. cbv zeta.
    destruct (length (c_chars text)) as [|fuel] eqn:El; [reflexivity|].
    cbn [encode_loop]. rewrite El.
    destruct (2 <=? Z.of_nat (S fuel)) eqn:E; [|reflexivity].
    apply Z.leb_le in E.
    destruct (token_counts_complete dm (c_chars text) (c_chars_token_ids text))
      as [es [Hres _]].
    { rewrite El. unfold MAX_TEXT_SIZE in *. lia. }
    unfold encode_step. rewrite Hres. cbn [bind]. rewrite firstn_flat.
    rewrite best_rank_no_merges by exact Hnum. reflexivity.
  - apply decode_bytes; [exact Hv | apply c_chars_bytes].
Qed.

Lemma decode_encode_round_trip_witness :
  exists t ids,
    train LP64 create_tokenizer "aaab"%string 257 = Returns t /\
    encode LP64 t "aaab"%string = Returns ids /\
    decode t ids = Returns [97; 97; 97; 98].
Proof.
  assert (Ht : exists t, train LP64 create_tokenizer "aaab"%string 257 = Returns t).
  { vm_compute. eexists. reflexivity. }
  destruct Ht as [t Ht].
  destruct (decode_encode_round_trip LP64 t "aaab"%string) as [ids [He Hd]].
  - exists create_tokenizer, "aaab"%string, 257. split; [constructor | exact Ht].
  - vm_compute. discriminate.
  - exists t, ids. auto.
Defined.

(** C2. What the code does in the scenario of the text ["aaab"] with a
    target of 257: training does one merge, learns [(97,97) -> 256] and
    leaves the sequence [[256,97,98]], but it leaves [num_merges] at 0, so
    [encode] returns the raw bytes [[97,97,97,98]], and [decode] of
    [[256,97,98]] writes ["aab"], the first byte of each entry. *)
Theorem aaab_scenario (dm : data_model) :
  (r <- train_loop dm 1 0 (c_chars "aaab") create_tokenizer ;;
   Returns (fst r, merges (snd r))) =
    Returns ([256; 97; 98],
             [{| pair := {| first := 97; second := 97 |}; idx := 256 |}]) /\
  (t <- train dm create_tokenizer "aaab" 257 ;; Returns (merges t, num_merges t)) =
    Returns ([{| pair := {| first := 97; second := 97 |}; idx := 256 |}], 0) /\
  (t <- train dm create_tokenizer "aaab" 257 ;; encode dm t "aaab") =
    Returns [97; 97; 97; 98] /\
  (t <- train dm create_tokenizer "aaab" 257 ;; decode t [256; 97; 98]) =
    Returns [97; 97; 98] /\
  c_chars "aaab" = [97; 97; 97; 98].
Proof.
  destruct dm; vm_compute; repeat split; reflexivity.
Qed.

(** C3. What [decode] does with a learned id: after training on ["aaab"]
    the entry of id 256 holds the two bytes [[97,97]], and [decode] of
    [[256]] writes the single byte 97. *)
Theorem decode_writes_first_byte_only (dm : data_model) :
  (t <- train dm create_tokenizer "aaab" 257 ;; rd (vocab t) 256) = Returns [97; 97] /\
  (t <- train dm create_tokenizer "aaab" 257 ;; decode t [256]) = Returns [97].
Proof.
  destruct dm; vm_compute; split; reflexivity.
Qed.

(** C4. What [encode] does with the rules [train] learned.  After training
    on ["aaab"] with a target of 257 the Merge Table holds the rule
    [(97,97) -> 256], and in the text ["aaab"] the pair [(97,97)] is
    present and has the lowest rank, 0.  The Encoder of the specification
    merges it and reaches [[256,97,98]], and nothing else.  [encode]
    selects no pair and returns the raw bytes [[97,97,97,98]]: it looks a
    pair up in the first [num_merges] cells of [merges], and [train] has
    left [num_merges] at 0. *)
Theorem encode_ignores_learned_rules (dm : data_model) :
  exists t,
    train dm create_tokenizer "aaab" 257 = Returns t /\
    merge_table t = [{| pair := {| first := 97; second := 97 |}; idx := 256 |}] /\
    num_merges t = 0 /\
    lowest_ranked t (c_chars "aaab") {| first := 97; second := 97 |} 0 /\
    encode dm t "aaab" = Returns [97; 97; 97; 98] /\
    ~ spec_encode t (c_chars "aaab") [97; 97; 97; 98] /\
    (forall out, spec_encode t (c_chars "aaab") out <-> out = [256; 97; 98]).
Proof.
  assert (Hm : (t <- train dm create_tokenizer "aaab" 257 ;;
                Returns (merges t, num_merges t)) =
               Returns ([{| pair := {| first := 97; second := 97 |}; idx := 256 |}], 0))
    by (destruct dm; vm_compute; reflexivity).
  assert (He : (t <- train dm create_tokenizer "aaab" 257 ;; encode dm t "aaab") =
               Returns [97; 97; 97; 98])
    by (destruct dm; vm_compute; reflexivity).
  destruct (train dm create_tokenizer "aaab" 257) as [t|]; [|discriminate].
  cbn [bind] in Hm, He. injection Hm as Hm Hnum.
  pose proof (spec_encode_one_rule t Hm) as Hspec.
  exists t. split; [reflexivity|]. split; [exact Hm|]. split; [exact Hnum|].
  split; [|split; [exact He|split]].
  - split; [left; reflexivity|]. split.
    + unfold rank, merge_table. rewrite Hm. reflexivity.
    + intros q k _ Hk. apply rank_Some in Hk. lia.
  - intros H. apply Hspec in H. discriminate.
  - exact Hspec.
Qed.

(** C5. What [train] stores for a learned id made of learned ids: on
    ["aaaa"] with a target of 258 the rules are [(97,97) -> 256] and
    [(256,256) -> 257]; the entry of 257 is [[0,0]], the two ids cut to a
    byte each, where the expansions of its parts give [[97,97,97,97]]. *)
Theorem learned_entry_holds_cut_ids (dm : data_model) :
  (t <- train dm create_tokenizer "aaaa" 258 ;; Returns (merges t)) =
    Returns [{| pair := {| first := 97; second := 97 |}; idx := 256 |};
             {| pair := {| first := 256; second := 256 |}; idx := 257 |}] /\
  (t <- train dm create_tokenizer "aaaa" 258 ;;
   e256 <- rd (vocab t) 256 ;;
   e257 <- rd (vocab t) 257 ;;
   Returns (e257, e256 ++ e256)) =
    Returns ([0; 0], [97; 97; 97; 97]).
Proof.
  destruct dm; vm_compute; split; reflexivity.
Qed.

(** C6, as stated, fails: in ["ab"] the only adjacent pair occurs once, and
    training with a target of 257 still merges it and produces one rule. *)
Lemma train_merges_pair_seen_once :
  adjacent_pairs (c_chars "ab"%string) = [{| first := 97; second := 98 |}] /\
  token_counts ILP32 (c_chars "ab"%string) = Returns ([97; 98; 1], 1) /\
  token_counts LP64 (c_chars "ab"%string) = Returns ([97; 98; 1], 1) /\
  (t <- train ILP32 create_tokenizer "ab" 257 ;; Returns (merges t)) =
    Returns [{| pair := {| first := 97; second := 98 |}; idx := 256 |}] /\
  (t <- train LP64 create_tokenizer "ab" 257 ;; Returns (merges t)) =
    Returns [{| pair := {| first := 97; second := 98 |}; idx := 256 |}].
Proof.
  vm_compute. repeat split; reflexivity.
Qed.

(** C6, amended.  An iteration of training that finds a maximum count of 0,
    as it does when the sequence holds a single id and so has no adjacent
    pair, leaves the loop and adds no rule, whatever the number of
    iterations left; training on a text of one byte produces no rule,
    whatever the target. *)
Theorem train_stops_without_pairs (dm : data_model) (t : BasicTokenizer)
    (text : string) (target : Z) :
  (forall n i ids t0 cells n_pairs,
     token_counts dm ids = Returns (cells, n_pairs) ->
     fst (best_count (firstn (Z.to_nat (n_pairs * 3)) cells) 0
                     {| first := 0; second := 0 |}) = 0 ->
     train_loop dm (S n) i ids t0 = Returns (ids, t0)) /\
  (forall n i a t0, train_loop dm (S n) i [a] t0 = Returns ([a], t0)) /\
  (length (c_chars text) = 1%nat ->
   train dm t text target =
   Returns {| merges := [];
              num_merges := num_merges t;
              vocab := vocab t;
              vocab_size := vocab_size t |}).
Proof.
  split; [|split].
  - intros n i ids t0 cells n_pairs Htc Hmax.
    cbn [train_loop]. rewrite Htc. cbn [bind].
    destruct (best_count _ 0 _) as [max_count best_pair].
    cbn [fst] in Hmax. subst max_count. reflexivity.
  - reflexivity.
  - intros Hlen.
    assert (Hloop : exists ids,
              train_loop dm (Z.to_nat (to_size_t dm (target - INITIAL_VOCAB_SIZE))) 0
                (c_chars text)
                {| merges := []; num_merges := num_merges t;
                   vocab := vocab t; vocab_size := vocab_size t |} =
              Returns (ids, {| merges := []; num_merges := num_merges t;
                               vocab := vocab t; vocab_size := vocab_size t |})).
    { destruct (c_chars text) as [|a [|b rest]]; try discriminate.
      exists [a]. destruct (Z.to_nat _); reflexivity. }
    destruct Hloop as [ids Hloop].
    apply (train_of_loop dm t text target ids); [| exact Hloop |].
    + rewrite Hlen. destruct dm; vm_compute; discriminate.
    + cbn [merges length]. apply malloc_cells_nonneg. reflexivity.
Qed.

Lemma train_stops_without_pairs_witness :
  train_loop LP64 5 0 [97] create_tokenizer = Returns ([97], create_tokenizer) /\
  train LP64 create_tokenizer "a"%string 300 = Returns create_tokenizer.
Proof.
  destruct (train_stops_without_pairs LP64 create_tokenizer "a"%string 300)
    as [H1 [_ H2]].
  split.
  - apply (H1 4%nat 0 [97] create_tokenizer [] 0); reflexivity.
  - apply H2. reflexivity.
Defined.

(** C7, as stated, fails: with a target of 256 [train] returns as usual
    and reports nothing. *)
Lemma train_256_returns :
  256 <= 256 /\
  train ILP32 create_tokenizer "aaab"%string 256 = Returns create_tokenizer /\
  train LP64 create_tokenizer "aaab"%string 256 = Returns create_tokenizer /\
  reported (train ILP32 create_tokenizer "aaab"%string 256) <> Some (Error InvalidVocabSize) /\
  reported (train LP64 create_tokenizer "aaab"%string 256) <> Some (Error InvalidVocabSize).
Proof.
  split; [lia|]. repeat split; try reflexivity; discriminate.
Qed.

(** C7, amended.  [train] reports no error, whatever the target: it has
    no status to return.  With a target of 256 and a text whose array of
    ids can be allocated it returns, performs no merge and leaves the
    vocabulary and [num_merges] as they were, the array of merges being a
    fresh one without cells.  (The size of the array of ids,
    [text_size * sizeof(int)], wraps around or outgrows every object for
    the texts left out, which are written outside of it.) *)
Theorem train_reports_no_error (dm : data_model) (t : BasicTokenizer) (text : string) :
  (forall target e, reported (train dm t text target) <> Some (Error e)) /\
  (Z.of_nat (length (c_chars text)) * sizeof_int <= PTRDIFF_MAX dm ->
   train dm t text 256 =
   Returns {| merges := [];
              num_merges := num_merges t;
              vocab := vocab t;
              vocab_size := vocab_size t |}).
Proof.
  split.
  - intros target e. destruct (train dm t text target); discriminate.
  - intros Hfit. apply (train_of_loop dm t text 256 (c_chars text)); [exact Hfit | |].
    + destruct dm; reflexivity.
    + cbn [merges length]. apply malloc_cells_nonneg. reflexivity.
Qed.

Lemma train_reports_no_error_witness :
  train LP64 two_rules "aaab"%string 256 =
  Returns {| merges := [];
             num_merges := 2;
             vocab := vocab create_tokenizer;
             vocab_size := INITIAL_VOCAB_SIZE |}.
Proof.
  destruct (train_reports_no_error LP64 two_rules "aaab"%string) as [_ H].
  apply H. vm_compute. discriminate.
Defined.

(** C8, as stated, fails: id 300 was never assigned in a fresh tokenizer,
    and [decode] of it reads outside the vocabulary array; no error is
    handed back. *)
Lemma decode_unknown_id_unreported :
  ~ in_vocab create_tokenizer 300 /\
  decode create_tokenizer [300] = Undefined /\
  reported (decode create_tokenizer [300]) <> Some (Error UnknownId).
Proof.
  split; [|split].
  - unfold in_vocab. vm_compute. intros [_ H]. discriminate.
  - reflexivity.
  - discriminate.
Qed.

(** C8, amended.  [decode] reports no [UnknownId]: on a tokenizer a
    program can hold it returns a text exactly when every id indexes an
    entry of the vocabulary array, and has no defined behaviour exactly
    when some id lies outside of it. *)
Theorem decode_defined_iff_ids_in_vocab (dm : data_model) (t : BasicTokenizer)
    (ids : list Z) :
  reachable dm t ->
  reported (decode t ids) <> Some (Error UnknownId) /\
  ((exists text, decode t ids = Returns text) <-> Forall (in_vocab t) ids) /\
  (decode t ids = Undefined <-> Exists (fun id => ~ in_vocab t id) ids).
Proof.
  intros Hr. destruct (reachable_keeps dm t Hr) as [_ [_ Hv]].
  split; [destruct (decode t ids); discriminate|].
  destruct (decode_cases t ids Hv) as [[Hall [text Ht]]|[Hex Hu]].
  - split; split; intros H.
    + exact Hall.
    + eauto.
    + congruence.
    + exfalso. exact (Forall_not_Exists _ _ Hall H).
  - split; split; intros H.
    + destruct H as [text Ht]. congruence.
    + exfalso. exact (Forall_not_Exists _ _ H Hex).
    + exact Hex.
    + exact Hu.
Qed.

Lemma decode_defined_iff_ids_in_vocab_witness :
  Forall (in_vocab create_tokenizer) [104; 105] /\
  exists text, decode create_tokenizer [104; 105] = Returns text.
Proof.
  assert (Hall : Forall (in_vocab create_tokenizer) [104; 105]).
  { repeat constructor; vm_compute; discriminate. }
  split; [exact Hall|].
  destruct (decode_defined_iff_ids_in_vocab LP64 create_tokenizer [104; 105])
    as [_ [[_ H] _]].
  - constructor.
  - exact (H Hall).
Defined.

(** C9. For a sequence within the working buffer, [merge] returns the
    sequence obtained by scanning left to right and replacing
    non-overlapping occurrences of the target pair, leftmost first, by the
    new id, every other position being copied; that sequence is the only
    one the specification's Merger allows, it is never longer than the
    input, and [[5,5,5]] with target [(5,5)] gives [[new_id, 5]]. *)
Theorem merge_leftmost_first (ids : list Z) (p : IntPair) (new_id : Z) :
  Z.of_nat (length ids) <= MAX_TEXT_SIZE ->
  exists out,
    merge ids p new_id = Returns out /\
    spec_apply p new_id ids out /\
    (forall out', spec_apply p new_id ids out' -> out' = out) /\
    (length out <= length ids)%nat /\
    merge [5; 5; 5] {| first := 5; second := 5 |} new_id = Returns [new_id; 5].
Proof.
  intros Hlen. exists (merge_scan ids p new_id).
  pose proof (merge_scan_length ids p new_id) as Hle.
  repeat split.
  - unfold merge. cbv zeta.
    destruct (Z.of_nat (length (merge_scan ids p new_id)) <=? MAX_TEXT_SIZE) eqn:E; auto.
    apply Z.leb_gt in E. lia.
  - apply merge_scan_spec_apply.
  - apply spec_apply_functional.
  - exact Hle.
Qed.

Lemma merge_leftmost_first_witness :
  exists out,
    merge [97; 97; 97; 98] {| first := 97; second := 97 |} 256 = Returns out /\
    out = [256; 97; 98].
Proof.
  destruct (merge_leftmost_first [97; 97; 97; 98] {| first := 97; second := 97 |} 256)
    as [out [Hm _]].
  - vm_compute. discriminate.
  - exists out. split; [exact Hm|].
    vm_compute in Hm. injection Hm as <-. reflexivity.
Defined.

(** C10. For every tokenizer, [encode] of the empty text returns the empty
    sequence and [decode] of the empty sequence writes the empty text. *)
Theorem encode_decode_empty (dm : data_model) (t : BasicTokenizer) :
  encode dm t EmptyString = Returns [] /\ decode t [] = Returns [].
Proof.
  split; reflexivity.
Qed.

(** * Further properties *)

(** ** merge *)

Lemma merge_scan_head b rest p idx x out :
  merge_scan (b :: rest) p idx = x :: out -> x = idx \/ x = b.
Proof.
  destruct rest as [|c rest].
  - cbn. intros H. injection H as <- _. right. reflexivity.
  - rewrite merge_scan_step.
    destruct ((b =? first p) && (c =? second p)); intros H; injection H as <- _; auto.
Qed.

Lemma adjacent_pairs_cons a l :
  adjacent_pairs (a :: l) =
  match l with
  | [] => []
  | b :: _ => {| first := a; second := b |} :: adjacent_pairs l
  end.
Proof. reflexivity. Qed.

Lemma merge_scan_removes ids p idx :
  idx <> first p -> idx <> second p ->
  ~ In p (adjacent_pairs (merge_scan ids p idx)).
Proof.
  intros Hf Hs.
  remember (length ids) as n eqn:Hn.
  revert ids Hn. induction n as [n IH] using lt_wf_ind. intros ids Hn.
  destruct ids as [|a [|b rest]]; [intros [] | intros [] |].
  rewrite merge_scan_step.
  destruct ((a =? first p) && (b =? second p)) eqn:E.
  - rewrite adjacent_pairs_cons.
    destruct (merge_scan rest p idx) as [|x out] eqn:Eout; [intros []|].
    intros [Hp|Hin].
    + apply Hf. rewrite <- Hp. reflexivity.
    + rewrite <- Eout in Hin.
      exact (IH (length rest) ltac:(cbn [length] in Hn; lia) rest eq_refl Hin).
  - rewrite adjacent_pairs_cons.
    destruct (merge_scan (b :: rest) p idx) as [|x out] eqn:Eout; [intros []|].
    intros [Hp|Hin].
    + destruct (merge_scan_head _ _ _ _ _ _ Eout) as [-> | ->].
      * apply Hs. rewrite <- Hp. reflexivity.
      * rewrite <- Hp in E. cbn [first second] in E.
        rewrite !Z.eqb_refl in E. discriminate.
    + rewrite <- Eout in Hin.
      exact (IH (length (b :: rest)) ltac:(cbn [length] in *; lia) (b :: rest) eq_refl Hin).
Qed.

(** X1. Once [merge] has replaced a pair by an id that is neither of its
    two ids, the pair occurs nowhere in the sequence it leaves. *)
Theorem merge_removes_pair (ids : list Z) (p : IntPair) (idx : Z) (out : list Z) :
  idx <> first p -> idx <> second p ->
  merge ids p idx = Returns out ->
  ~ In p (adjacent_pairs out).
Proof.
  intros Hf Hs H. apply merge_Returns in H. destruct H as [-> _].
  apply merge_scan_removes; assumption.
Qed.

Lemma merge_removes_pair_witness :
  ~ In {| first := 5; second := 5 |} (adjacent_pairs [256; 256; 5; 7]).
Proof.
  apply (merge_removes_pair [5; 5; 5; 5; 5; 7] {| first := 5; second := 5 |} 256).
  - cbn. discriminate.
  - cbn. discriminate.
  - reflexivity.
Defined.

Lemma merge_scan_absent ids p idx :
  ~ In p (adjacent_pairs ids) -> merge_scan ids p idx = ids.
Proof.
  induction ids as [|a ids IH]; [reflexivity|].
  destruct ids as [|b rest]; [reflexivity|].
  rewrite adjacent_pairs_step, merge_scan_step. intros Hn.
  destruct ((a =? first p) && (b =? second p)) eqn:E.
  - exfalso. apply Hn. left.
    apply andb_true_iff in E. destruct E as [Ea Eb]. apply Z.eqb_eq in Ea, Eb.
    destruct p as [f s]. cbn [first second] in *. subst. reflexivity.
  - rewrite IH; [reflexivity|]. intros Hin. apply Hn. right. exact Hin.
Qed.

(** X2. Within the working buffer, [merge] hands the sequence back as it
    was exactly when the pair does not occur in it; when the pair occurs,
    the sequence gets shorter. *)
Theorem merge_unchanged_iff_pair_absent (ids : list Z) (p : IntPair) (idx : Z) :
  Z.of_nat (length ids) <= MAX_TEXT_SIZE ->
  (merge ids p idx = Returns ids <-> ~ In p (adjacent_pairs ids)) /\
  (In p (adjacent_pairs ids) ->
   exists out, merge ids p idx = Returns out /\ (length out < length ids)%nat).
Proof.
  intros Hlen. rewrite merge_in_capacity by exact Hlen. split; [split|].
  - intros H Hin. injection H as H.
    pose proof (merge_scan_shorter ids p idx Hin) as Hs. rewrite H in Hs. lia.
  - intros Hn. rewrite merge_scan_absent by exact Hn. reflexivity.
  - intros Hin. eexists. split; [reflexivity|]. apply merge_scan_shorter. exact Hin.
Qed.

Lemma merge_unchanged_iff_pair_absent_witness :
  merge [1; 2; 3] {| first := 2; second := 1 |} 256 = Returns [1; 2; 3].
Proof.
  destruct (merge_unchanged_iff_pair_absent [1; 2; 3] {| first := 2; second := 1 |} 256)
    as [[_ H] _].
  - cbn. discriminate.
  - apply H. cbn. intros [H1|[H1|[]]]; discriminate.
Defined.

Lemma merge_scan_half ids p idx :
  (length ids <= 2 * length (merge_scan ids p idx))%nat.
Proof.
  remember (length ids) as n eqn:Hn.
  revert ids Hn. induction n as [n IH] using lt_wf_ind. intros ids Hn.
  destruct ids as [|a [|b rest]]; [cbn in *; lia | cbn in *; lia |].
  rewrite merge_scan_step.
  destruct ((a =? first p) && (b =? second p)).
  - pose proof (IH (length rest) ltac:(cbn [length] in Hn; lia) rest eq_refl).
    cbn [length] in *. lia.
  - pose proof (IH (length (b :: rest)) ltac:(cbn [length] in *; lia) (b :: rest) eq_refl).
    cbn [length] in *. lia.
Qed.

(** X3. [merge] writes at least half as many ids as it reads, so a sequence
    of more than twice [MAX_TEXT_SIZE] ids overruns its local buffer,
    whatever the pair. *)
Theorem merge_overruns_buffer (ids : list Z) (p : IntPair) (idx : Z) :
  2 * MAX_TEXT_SIZE < Z.of_nat (length ids) ->
  merge ids p idx = Undefined.
Proof.
  intros Hlen. unfold merge. cbv zeta.
  pose proof (merge_scan_half ids p idx).
  destruct (Z.of_nat (length (merge_scan ids p idx)) <=? MAX_TEXT_SIZE) eqn:E; [|reflexivity].
  apply Z.leb_le in E. lia.
Qed.

Lemma merge_overruns_buffer_witness :
  merge (repeat 7 2049) {| first := 7; second := 7 |} 256 = Undefined.
Proof.
  apply merge_overruns_buffer. rewrite repeat_length. vm_compute. reflexivity.
Defined.

(** ** find_pair_index *)

Lemma index_of_first p table r :
  index_of p table = Some r ->
  forall j m, 0 <= j < r -> nth_error table (Z.to_nat j) = Some m -> pair m <> p.
Proof.
  revert r. induction table as [|m0 table IH]; intros r H j m Hj Hn; [discriminate|].
  cbn [index_of] in H. destruct (pair_eqb (pair m0) p) eqn:E.
  - injection H as <-. lia.
  - destruct (index_of p table) as [r'|] eqn:Er; [|discriminate].
    injection H as <-.
    destruct (Z.eq_dec j 0) as [-> | Hj0].
    + cbn in Hn. injection Hn as <-. intros Hp. apply pair_eqb_eq in Hp. congruence.
    + replace (Z.to_nat j) with (S (Z.to_nat (j - 1))) in Hn by lia. cbn in Hn.
      apply (IH r' eq_refl (j - 1) m); [lia | exact Hn].
Qed.

(** X4. Given no more cells than the array has, [find_pair_index] returns
    the index of the first cell whose pair is the one looked for, and
    [merges_size] when no cell has it. *)
Theorem find_pair_index_first_match (ms : list Merge) (merges_size : Z) (p : IntPair) :
  0 <= merges_size <= Z.of_nat (length ms) ->
  exists k,
    find_pair_index ms merges_size p = Returns k /\
    0 <= k <= merges_size /\
    (k < merges_size ->
     exists m, nth_error ms (Z.to_nat k) = Some m /\ pair m = p) /\
    (forall j m, 0 <= j < k -> nth_error ms (Z.to_nat j) = Some m -> pair m <> p).
Proof.
  intros H. unfold find_pair_index.
  rewrite find_pair_loop_index_of by lia. rewrite Z.sub_0_r.
  assert (Hnth : forall j, 0 <= j < merges_size ->
            nth_error (firstn (Z.to_nat merges_size) ms) (Z.to_nat j) =
            nth_error ms (Z.to_nat j)).
  { intros j Hj. rewrite nth_error_firstn.
    destruct (Z.to_nat j <? Z.to_nat merges_size)%nat eqn:E; [reflexivity|].
    apply Nat.ltb_ge in E. lia. }
  destruct (index_of p (firstn (Z.to_nat merges_size) ms)) as [r|] eqn:E.
  - pose proof (index_of_Some _ _ _ E) as [Hr [m [Hm Hp]]].
    rewrite length_firstn in Hr.
    exists (0 + r). split; [reflexivity|]. rewrite Z.add_0_l.
    split; [lia|]. split.
    + intros _. exists m. rewrite <- Hnth by lia. auto.
    + intros j m' Hj Hn. rewrite <- Hnth in Hn by lia.
      exact (index_of_first _ _ _ E j m' Hj Hn).
  - exists merges_size. split; [reflexivity|]. split; [lia|]. split; [lia|].
    intros j m Hj Hn. rewrite <- Hnth in Hn by lia.
    apply (index_of_None _ _ E). eapply nth_error_In. exact Hn.
Qed.

Lemma find_pair_index_first_match_witness :
  exists k, find_pair_index (merges two_rules) 2 {| first := 98; second := 99 |} = Returns k /\
            k = 1.
Proof.
  destruct (find_pair_index_first_match (merges two_rules) 2 {| first := 98; second := 99 |})
    as [k [Hk _]].
  - cbn. lia.
  - exists k. split; [exact Hk|]. vm_compute in Hk. injection Hk as <-. reflexivity.
Defined.

Lemma find_pair_loop_past_end ms n p :
  (forall m, In m ms -> pair m <> p) ->
  forall i, i + Z.of_nat (length ms) < n -> find_pair_loop ms n i p = Undefined.
Proof.
  induction ms as [|m ms IH]; intros Hno i Hi; cbn [find_pair_loop].
  - cbn [length] in Hi. destruct (i <? n) eqn:E; [reflexivity|].
    apply Z.ltb_ge in E. lia.
  - cbn [length] in Hi. destruct (i <? n) eqn:E; [|apply Z.ltb_ge in E; lia].
    destruct (pair_eqb (pair m) p) eqn:Ep.
    + apply pair_eqb_eq in Ep. exfalso. exact (Hno m (or_introl eq_refl) Ep).
    + apply IH; [|lia]. intros m' Hm'. apply Hno. right. exact Hm'.
Qed.

(** X5. Told of more cells than the array has, [find_pair_index] runs past
    the end of the array when no cell has the pair. *)
Theorem find_pair_index_past_end (ms : list Merge) (merges_size : Z) (p : IntPair) :
  Z.of_nat (length ms) < merges_size ->
  (forall m, In m ms -> pair m <> p) ->
  find_pair_index ms merges_size p = Undefined.
Proof.
  intros Hlen Hno. apply find_pair_loop_past_end; [exact Hno | lia].
Qed.

Lemma find_pair_index_past_end_witness :
  find_pair_index (merges two_rules) 3 {| first := 1; second := 2 |} = Undefined.
Proof.
  apply find_pair_index_past_end.
  - cbn. lia.
  - intros m [<- | [<- | []]]; discriminate.
Defined.

(** ** token_counts *)

Lemma adjacent_pairs_length ids :
  length (adjacent_pairs ids) = (length ids - 1)%nat.
Proof.
  induction ids as [|a ids IH]; [reflexivity|].
  destruct ids as [|b rest]; [reflexivity|].
  rewrite adjacent_pairs_step. cbn [length] in *. lia.
Qed.

Lemma token_counts_loop_size dm ids :
  forall cells n cells' n',
    token_counts_loop dm ids cells n = Returns (cells', n') ->
    n <= n' <= n + Z.of_nat (length (adjacent_pairs ids)) /\
    (n <= MAX_TEXT_SIZE -> n' <= MAX_TEXT_SIZE).
Proof.
  induction ids as [|a ids IH]; intros cells n cells' n' H.
  - cbn in H. injection H as <- <-. cbn. lia.
  - destruct ids as [|b rest].
    + cbn in H. injection H as <- <-. cbn. lia.
    + rewrite token_counts_loop_step in H. rewrite adjacent_pairs_step.
      returned H as index eqn:F.
      destruct (index =? n).
      * destruct (n <? MAX_TEXT_SIZE) eqn:E; [|discriminate].
        apply Z.ltb_lt in E. apply IH in H. cbn [length]. lia.
      * returned H as count eqn:R. returned H as cells0 eqn:W.
        apply IH in H. cbn [length]. lia.
Qed.

(** X6. Whatever the width of [size_t], the table [token_counts] returns
    has three cells per entry, at most [MAX_TEXT_SIZE] entries and no more
    entries than the sequence has adjacent pairs, and every entry holds a
    pair that is adjacent in the sequence. *)
Theorem token_counts_table (dm : data_model) (ids cells : list Z) (n : Z) :
  Forall is_int ids ->
  token_counts dm ids = Returns (cells, n) ->
  Z.of_nat (length cells) = 3 * n /\
  0 <= n <= MAX_TEXT_SIZE /\
  n <= Z.of_nat (length ids) - 1 /\
  forall q, In q (entries cells) -> In q (adjacent_pairs ids).
Proof.
  intros Hint H.
  destruct (token_counts_sound dm ids cells n Hint H) as [es [-> [-> Hincl]]].
  destruct ids as [|a ids]; [discriminate|].
  unfold token_counts in H. apply token_counts_loop_size in H.
  rewrite adjacent_pairs_length in H. cbn [length] in *.
  rewrite flat_length, entries_flat.
  split; [lia|]. split; [unfold MAX_TEXT_SIZE in *; lia|]. split; [lia|].
  exact Hincl.
Qed.

Lemma token_counts_table_witness :
  token_counts ILP32 [5; 5; 5; 7] = Returns ([5; 5; 2; 5; 7; 1], 2) /\
  In {| first := 5; second := 7 |} (adjacent_pairs [5; 5; 5; 7]).
Proof.
  split; [reflexivity|].
  destruct (token_counts_table ILP32 [5; 5; 5; 7] [5; 5; 2; 5; 7; 1] 2) as [_ [_ [_ H]]].
  - apply Forall_forall. intros x Hx. unfold is_int. cbn in Hx. lia.
  - reflexivity.
  - apply H. right. left. reflexivity.
Defined.

Lemma token_counts_LP64_table ids :
  Forall token_id ids ->
  1 <= Z.of_nat (length ids) <= MAX_TEXT_SIZE + 1 ->
  token_counts LP64 ids =
  Returns (flat (map once (adjacent_pairs ids)),
           Z.of_nat (length (map once (adjacent_pairs ids)))).
Proof.
  intros Hids Hlen. destruct ids as [|a ids]; [cbn in Hlen; lia|].
  unfold token_counts.
  change (@nil Z) with (flat []). change 0 with (Z.of_nat (@length (Z * Z * Z) [])).
  rewrite token_counts_loop_LP64.
  - reflexivity.
  - exact Hids.
  - constructor.
  - cbn [length] in *. lia.
Qed.

(** X7. Where [size_t] is wider than [int], the cast makes every lookup in
    the table miss: [token_counts] gives each adjacent pair of a sequence
    of token ids an entry of its own, in order, with count 1, and counts
    nothing above 1. *)
Theorem token_counts_LP64_counts_once (ids : list Z) :
  Forall token_id ids ->
  1 <= Z.of_nat (length ids) <= MAX_TEXT_SIZE + 1 ->
  token_counts LP64 ids =
  Returns (flat (map once (adjacent_pairs ids)), Z.of_nat (length ids) - 1).
Proof.
  intros Hids Hlen. rewrite token_counts_LP64_table by assumption.
  rewrite length_map, adjacent_pairs_length. do 2 f_equal. lia.
Qed.

Lemma token_counts_LP64_counts_once_witness :
  token_counts LP64 [5; 5; 5] = Returns ([5; 5; 1; 5; 5; 1], 2).
Proof.
  apply (token_counts_LP64_counts_once [5; 5; 5]).
  - apply Forall_forall. intros x Hx. unfold token_id. cbn in Hx. lia.
  - vm_compute. split; discriminate.
Defined.

Lemma token_counts_loop_LP64_overflow ids :
  forall es,
    Forall token_id ids ->
    Forall small es ->
    (1 <= length ids)%nat ->
    Z.of_nat (length es) <= MAX_TEXT_SIZE ->
    MAX_TEXT_SIZE + 1 < Z.of_nat (length es) + Z.of_nat (length ids) ->
    token_counts_loop LP64 ids (flat es) (Z.of_nat (length es)) = Undefined.
Proof.
  induction ids as [|a ids IH]; intros es Hids Hsmall Hne Hes Hover.
  - cbn [length] in Hne. lia.
  - destruct ids as [|b rest].
    + cbn [length] in Hover. lia.
    + rewrite token_counts_loop_step.
      inversion Hids as [|? ? Ha Hids']; subst.
      pose proof Hids' as Hids''. inversion Hids'' as [|? ? Hb _]; subst.
      unfold find_pair_index.
      rewrite find_pair_loop_index_of
        by (pose proof (cast_merges_length LP64 es); lia).
      rewrite Z.sub_0_r, Nat2Z.id.
      destruct (index_of {| first := a; second := b |}
                  (firstn (length es) (cast_merges LP64 (flat es)))) as [r|] eqn:E.
      * destruct (table_hit LP64 es {| first := a; second := b |} r Hsmall Ha Hb E)
          as [_ [_ Hdm]]. discriminate.
      * cbn [bind]. rewrite Z.eqb_refl.
        destruct (Z.of_nat (length es) <? MAX_TEXT_SIZE) eqn:Ecap; [|reflexivity].
        apply Z.ltb_lt in Ecap.
        unfold token_id in Ha, Hb.
        rewrite !to_size_t_small by lia.
        rewrite flat_snoc, (length_snoc es (a, b, 1)).
        apply IH.
        -- exact Hids'.
        -- apply Forall_app. split; [exact Hsmall|]. constructor; [|constructor].
           cbn [small]. lia.
        -- cbn [length]. lia.
        -- rewrite length_app. cbn [length]. lia.
        -- rewrite length_app. cbn [length] in *. lia.
Qed.

(** X8. Where [size_t] is wider than [int], a sequence of more than
    [MAX_TEXT_SIZE + 1] token ids makes [token_counts] write past the end of
    its table. *)
Theorem token_counts_LP64_overruns_table (ids : list Z) :
  Forall token_id ids ->
  MAX_TEXT_SIZE + 1 < Z.of_nat (length ids) ->
  token_counts LP64 ids = Undefined.
Proof.
  intros Hids Hlen. destruct ids as [|a ids]; [reflexivity|].
  unfold token_counts.
  change (@nil Z) with (flat []). change 0 with (Z.of_nat (@length (Z * Z * Z) [])).
  apply token_counts_loop_LP64_overflow.
  - exact Hids.
  - constructor.
  - cbn [length]. lia.
  - cbn. discriminate.
  - cbn [length] in *. lia.
Qed.

Lemma repeat_token_ids n : Forall token_id (repeat 97 n).
Proof.
  apply Forall_forall. intros x Hx. apply repeat_spec in Hx. subst.
  vm_compute. split; reflexivity.
Defined.

Lemma token_counts_LP64_overruns_table_witness :
  token_counts LP64 (repeat 97 1026) = Undefined.
Proof.
  apply token_counts_LP64_overruns_table.
  - apply repeat_token_ids.
  - rewrite repeat_length. vm_compute. reflexivity.
Defined.

(** *** The counts where [size_t] has the width of [int] *)

Lemma tally_found es p r :
  index_of p (map (fun e => {| pair := pair_of e; idx := to_int (snd e) |}) es) = Some r ->
  0 <= r < Z.of_nat (length es) /\
  exists c,
    nth_error (flat es) (3 * Z.to_nat r + 2) = Some c /\
    tally es p = bump es (Z.to_nat r) (to_size_t ILP32 (c + 1)).
Proof.
  revert r. induction es as [|[[f s] c] es IH]; intros r H; [discriminate|].
  cbn [map index_of pair] in H. cbn [tally].
  destruct (pair_eqb (pair_of (f, s, c)) p).
  - injection H as <-. split; [cbn [length]; lia|].
    exists c. split; reflexivity.
  - destruct (index_of p _) as [r'|] eqn:E; [|discriminate].
    injection H as <-. destruct (IH r' eq_refl) as [Hr [c' [Hn Ht]]].
    split; [cbn [length]; lia|]. exists c'.
    replace (Z.to_nat (r' + 1)) with (S (Z.to_nat r')) by lia.
    replace (3 * S (Z.to_nat r') + 2)%nat with (S (S (S (3 * Z.to_nat r' + 2)))) by lia.
    cbn [flat nth_error bump]. rewrite Ht. auto.
Qed.

Lemma tally_missed es p :
  index_of p (map (fun e => {| pair := pair_of e; idx := to_int (snd e) |}) es) = None ->
  tally es p = es ++ [(to_size_t ILP32 (first p), to_size_t ILP32 (second p), 1)].
Proof.
  induction es as [|[[f s] c] es IH]; intros H; [reflexivity|].
  cbn [map index_of pair] in H. cbn [tally].
  destruct (pair_eqb (pair_of (f, s, c)) p); [discriminate|].
  destruct (index_of p _) eqn:E; [discriminate|].
  rewrite IH by reflexivity. reflexivity.
Qed.

Lemma tally_length es p : (length es <= length (tally es p) <= S (length es))%nat.
Proof.
  induction es as [|e es IH]; cbn [tally length]; [lia|].
  destruct (pair_eqb (pair_of e) p); cbn [length]; lia.
Qed.

(** The loop of [token_counts] is [tally] over the adjacent pairs. *)
Lemma token_counts_loop_ILP32 ids :
  forall es,
    Z.of_nat (length es) + Z.of_nat (length ids) <= MAX_TEXT_SIZE + 1 ->
    token_counts_loop ILP32 ids (flat es) (Z.of_nat (length es)) =
    Returns (flat (fold_left tally (adjacent_pairs ids) es),
             Z.of_nat (length (fold_left tally (adjacent_pairs ids) es))).
Proof.
  induction ids as [|a ids IH]; intros es Hcap; [reflexivity|].
  destruct ids as [|b rest]; [reflexivity|].
  rewrite token_counts_loop_step, adjacent_pairs_step. cbn [fold_left].
  set (p := {| first := a; second := b |}).
  pose proof (tally_length es p) as Htl.
  unfold find_pair_index. rewrite cast_merges_ILP32.
  rewrite find_pair_loop_index_of by (rewrite length_map; lia).
  rewrite Z.sub_0_r, Nat2Z.id.
  rewrite firstn_all2 by (rewrite length_map; lia).
  destruct (index_of p _) as [r|] eqn:E.
  - destruct (tally_found es p r E) as [Hr [c [Hn Ht]]].
    cbn [bind]. rewrite Z.add_0_l.
    destruct (r =? Z.of_nat (length es)) eqn:Er; [apply Z.eqb_eq in Er; lia|].
    assert (Hrd : rd (flat es) (r * 3 + 2) = Returns c).
    { apply rd_nth_error. split; [lia|].
      replace (Z.to_nat (r * 3 + 2)) with (3 * Z.to_nat r + 2)%nat by lia. exact Hn. }
    rewrite Hrd. cbn [bind].
    rewrite wr_in_range by (rewrite flat_length; lia). cbn [bind].
    replace (Z.to_nat (r * 3 + 2)) with (3 * Z.to_nat r + 2)%nat by lia.
    rewrite upd_flat, <- Ht.
    assert (Hlen : length (tally es p) = length es) by (rewrite Ht; apply bump_length).
    rewrite <- Hlen. apply IH. rewrite Hlen. cbn [length] in *. lia.
  - cbn [bind]. rewrite Z.eqb_refl.
    destruct (Z.of_nat (length es) <? MAX_TEXT_SIZE) eqn:Ecap;
      [|apply Z.ltb_ge in Ecap; cbn [length] in Hcap; lia].
    rewrite flat_snoc, (length_snoc es (to_size_t ILP32 a, to_size_t ILP32 b, 1)).
    rewrite (tally_missed es p E). cbn [first second p].
    apply IH. rewrite length_app. cbn [length] in *. lia.
Qed.

Lemma pair_eqb_sym p q : pair_eqb p q = pair_eqb q p.
Proof.
  unfold pair_eqb. rewrite (Z.eqb_sym (first p)), (Z.eqb_sym (second p)). reflexivity.
Qed.

Lemma memb_eq p q ps : pair_eqb q p = true -> memb q ps = memb p ps.
Proof. intros H. apply pair_eqb_eq in H. subst. reflexivity. Qed.

Lemma tally_keys es p :
  int_pair p ->
  map pair_of (tally es p) =
  if memb p (map pair_of es) then map pair_of es else map pair_of es ++ [p].
Proof.
  intros [Hf Hs]. induction es as [|[[f s] c] es IH].
  - cbn [tally map pair_of memb existsb app].
    rewrite !to_int_to_size_t by assumption. destruct p; reflexivity.
  - cbn [tally map memb existsb].
    destruct (pair_eqb (pair_of (f, s, c)) p) eqn:E; cbn [orb map fst snd].
    + reflexivity.
    + rewrite IH. fold (memb p (map pair_of es)).
      destruct (memb p (map pair_of es)); reflexivity.
Qed.

Lemma filter_filter {A} (f g : A -> bool) l :
  filter f (filter g l) = filter (fun x => g x && f x) l.
Proof.
  induction l as [|x l IH]; [reflexivity|].
  cbn [filter]. destruct (g x); cbn [filter andb]; [destruct (f x)|]; congruence.
Qed.

Lemma fold_tally_keys ps :
  Forall int_pair ps ->
  forall es,
    map pair_of (fold_left tally ps es) =
    map pair_of es ++
    filter (fun q => negb (memb q (map pair_of es))) (distinct ps).
Proof.
  induction 1 as [|p ps Hp Hps IH]; intros es.
  - cbn. rewrite app_nil_r. reflexivity.
  - cbn [fold_left distinct filter]. rewrite IH, tally_keys by exact Hp.
    rewrite filter_filter.
    destruct (memb p (map pair_of es)) eqn:E; cbn [negb].
    + f_equal. apply filter_ext. intros q.
      destruct (pair_eqb q p) eqn:Eq; cbn [negb andb]; [|reflexivity].
      rewrite (memb_eq p q _ Eq), E. reflexivity.
    + rewrite <- app_assoc. cbn [app]. do 2 f_equal. apply filter_ext. intros q.
      unfold memb. rewrite existsb_app. cbn [existsb]. rewrite orb_false_r.
      fold (memb q (map pair_of es)). rewrite (pair_eqb_sym p q).
      destruct (pair_eqb q p), (memb q (map pair_of es)); reflexivity.
Qed.

Lemma tally_count es p q B :
  int_pair p ->
  Forall (fun e => 0 <= snd e <= B) es ->
  0 <= B -> B + 1 < 2 ^ 32 ->
  count_of q (tally es p) = count_of q es + (if pair_eqb p q then 1 else 0) /\
  Forall (fun e => 0 <= snd e <= B + 1) (tally es p).
Proof.
  intros [Hf Hs] Hes HB0 HB. induction Hes as [|[[f s] c] es Hc Hes IH].
  - cbn [tally count_of pair_of snd].
    rewrite !to_int_to_size_t by assumption.
    replace {| first := first p; second := second p |} with p by (destruct p; reflexivity).
    split; [destruct (pair_eqb p q); reflexivity|].
    constructor; [cbn [snd]; lia | constructor].
  - cbn [snd] in Hc. destruct IH as [IH1 IH2].
    cbn [tally].
    destruct (pair_eqb (pair_of (f, s, c)) p) eqn:E.
    + apply pair_eqb_eq in E. subst p. cbn [fst snd].
      assert (Hw : to_size_t ILP32 (c + 1) = c + 1).
      { unfold to_size_t. cbn [size_bits]. apply Z.mod_small. lia. }
      rewrite Hw. split.
      * cbn [count_of pair_of snd].
        destruct (pair_eqb {| first := to_int f; second := to_int s |} q); [reflexivity | lia].
      * constructor; [cbn [snd]; lia|].
        eapply Forall_impl; [|exact Hes]. cbn beta. intros e He. lia.
    + split.
      * cbn [count_of]. destruct (pair_eqb (pair_of (f, s, c)) q) eqn:Eq.
        -- apply pair_eqb_eq in Eq. subst q. rewrite pair_eqb_sym, E. lia.
        -- exact IH1.
      * constructor; [cbn [snd]; lia | exact IH2].
Qed.

Lemma occurrences_bounds q ps : 0 <= occurrences q ps <= Z.of_nat (length ps).
Proof.
  induction ps as [|p ps IH]; cbn [occurrences length]; [lia|].
  destruct (pair_eqb p q); lia.
Qed.

Lemma fold_tally_count q ps :
  Forall int_pair ps ->
  forall es B,
    Forall (fun e => 0 <= snd e <= B) es ->
    0 <= B -> B + Z.of_nat (length ps) < 2 ^ 32 ->
    count_of q (fold_left tally ps es) = count_of q es + occurrences q ps.
Proof.
  induction 1 as [|p ps Hp Hps IH]; intros es B Hes HB0 HB.
  - cbn. lia.
  - cbn [fold_left occurrences length] in *.
    destruct (tally_count es p q B Hp Hes HB0 ltac:(lia)) as [H1 H2].
    rewrite (IH (tally es p) (B + 1) H2) by lia.
    rewrite H1. lia.
Qed.

Lemma distinct_NoDup ps : NoDup (distinct ps).
Proof.
  induction ps as [|p ps IH]; [constructor|].
  cbn [distinct]. constructor.
  - intros H. apply filter_In in H. destruct H as [_ H].
    rewrite (proj2 (pair_eqb_eq p p) eq_refl) in H. discriminate.
  - apply NoDup_filter. exact IH.
Qed.

Lemma count_of_entry es e :
  NoDup (map pair_of es) -> In e es -> count_of (pair_of e) es = snd e.
Proof.
  induction es as [|e0 es IH]; intros Hnd Hin; [contradiction|].
  cbn [map] in Hnd. apply NoDup_cons_iff in Hnd. destruct Hnd as [Hnot Hnd].
  cbn [count_of]. destruct Hin as [-> | Hin].
  - rewrite (proj2 (pair_eqb_eq _ _) eq_refl). reflexivity.
  - destruct (pair_eqb (pair_of e0) (pair_of e)) eqn:E.
    + apply pair_eqb_eq in E. exfalso. apply Hnot. rewrite E. apply in_map. exact Hin.
    + apply IH; assumption.
Qed.

Lemma adjacent_pairs_int ids :
  Forall is_int ids -> Forall int_pair (adjacent_pairs ids).
Proof.
  intros H. apply Forall_forall. intros p Hp.
  rewrite Forall_forall in H. destruct (adjacent_pairs_In _ _ Hp). split; auto.
Qed.

Lemma token_counts_ILP32_table ids :
  Forall is_int ids ->
  1 <= Z.of_nat (length ids) <= MAX_TEXT_SIZE + 1 ->
  exists es,
    token_counts ILP32 ids = Returns (flat es, Z.of_nat (length es)) /\
    map pair_of es = distinct (adjacent_pairs ids) /\
    (forall e, In e es -> snd e = occurrences (pair_of e) (adjacent_pairs ids)) /\
    (forall q, ~ In q (map pair_of es) -> occurrences q (adjacent_pairs ids) = 0).
Proof.
  intros Hint Hlen.
  pose proof (adjacent_pairs_int ids Hint) as Hps.
  exists (fold_left tally (adjacent_pairs ids) []).
  assert (Hkeys : map pair_of (fold_left tally (adjacent_pairs ids) []) =
                  distinct (adjacent_pairs ids)).
  { rewrite fold_tally_keys by exact Hps. cbn [map app memb existsb negb].
    clear. induction (distinct (adjacent_pairs ids)) as [|x l IH]; cbn; congruence. }
  assert (Hcount : forall q, count_of q (fold_left tally (adjacent_pairs ids) []) =
                             occurrences q (adjacent_pairs ids)).
  { intros q. rewrite (fold_tally_count q _ Hps [] 0); [reflexivity | constructor | lia |].
    rewrite adjacent_pairs_length. unfold MAX_TEXT_SIZE in Hlen. lia. }
  split; [|split; [exact Hkeys | split]].
  - destruct ids as [|a ids]; [cbn in Hlen; lia|].
    unfold token_counts.
    change (@nil Z) with (flat []). change 0 with (Z.of_nat (@length (Z * Z * Z) [])).
    apply token_counts_loop_ILP32. cbn [length] in *. lia.
  - intros e He. rewrite <- Hcount. symmetry. apply count_of_entry; [|exact He].
    rewrite Hkeys. apply distinct_NoDup.
  - intros q Hq. rewrite <- Hcount.
    clear -Hq. induction (fold_left tally (adjacent_pairs ids) []) as [|e es IH];
      [reflexivity|].
    cbn [count_of]. cbn [map In] in Hq.
    destruct (pair_eqb (pair_of e) q) eqn:E.
    + apply pair_eqb_eq in E. exfalso. apply Hq. left. exact E.
    + apply IH. intros H. apply Hq. right. exact H.
Qed.

(** X9. Where [size_t] has the width of [int], [token_counts] counts as its
    comment says: the table lists the distinct adjacent pairs of the
    sequence in the order of their first occurrence, each with the number
    of times it occurs, overlapping occurrences included. *)
Theorem token_counts_ILP32_counts (ids : list Z) :
  Forall is_int ids ->
  1 <= Z.of_nat (length ids) <= MAX_TEXT_SIZE + 1 ->
  exists es,
    token_counts ILP32 ids = Returns (flat es, Z.of_nat (length es)) /\
    map pair_of es = distinct (adjacent_pairs ids) /\
    (forall e, In e es -> snd e = occurrences (pair_of e) (adjacent_pairs ids)) /\
    (forall q, ~ In q (map pair_of es) -> occurrences q (adjacent_pairs ids) = 0).
Proof. apply token_counts_ILP32_table. Qed.

Lemma token_counts_ILP32_counts_witness :
  exists es,
    token_counts ILP32 [5; 5; 5; 7] = Returns (flat es, Z.of_nat (length es)) /\
    map pair_of es = [{| first := 5; second := 5 |}; {| first := 5; second := 7 |}] /\
    occurrences {| first := 5; second := 5 |} (adjacent_pairs [5; 5; 5; 7]) = 2.
Proof.
  destruct (token_counts_ILP32_counts [5; 5; 5; 7]) as [es [H [Hk _]]].
  - apply Forall_forall. intros x Hx. unfold is_int. cbn in Hx. lia.
  - vm_compute. split; discriminate.
  - exists es. split; [exact H|]. split; [exact Hk | reflexivity].
Defined.

(** ** train *)

(** An iteration of the loop of [train] that finds a count above 0 merges
    the pair it selected into the id [256 + i]. *)
Lemma train_loop_merges dm n i ids t es max_count best_pair :
  token_counts dm ids = Returns (flat es, Z.of_nat (length es)) ->
  best_count (flat es) 0 {| first := 0; second := 0 |} = (max_count, best_pair) ->
  max_count <> 0 ->
  0 <= i <= MAX_TEXT_SIZE + 1 ->
  Z.of_nat (length ids) <= MAX_TEXT_SIZE ->
  train_loop dm (S n) i ids t =
  train_loop dm n (i + 1) (merge_scan ids best_pair (256 + i))
    {| merges := merges t ++ [{| pair := best_pair; idx := 256 + i |}];
       num_merges := num_merges t;
       vocab := upd (realloc (256 + i + 1) (vocab t)) (Z.to_nat (256 + i))
                    [to_uchar (first best_pair); to_uchar (second best_pair)];
       vocab_size := vocab_size t |}.
Proof.
  intros Htc Hbest Hmax Hi Hlen. unfold MAX_TEXT_SIZE in Hi.
  cbn [train_loop]. rewrite Htc. cbn [bind]. rewrite firstn_flat, Hbest.
  destruct (max_count =? 0) eqn:E; [apply Z.eqb_eq in E; contradiction|].
  unfold INITIAL_VOCAB_SIZE.
  rewrite !to_size_t_small by lia.
  rewrite to_int_id by (unfold is_int; lia).
  rewrite merge_in_capacity by exact Hlen. cbn [bind].
  rewrite wr_in_range by (rewrite realloc_length; lia).
  reflexivity.
Qed.

Lemma merge_scan_nonempty ids p idx :
  (1 <= length ids)%nat -> (1 <= length (merge_scan ids p idx))%nat.
Proof.
  intros H. pose proof (merge_scan_half ids p idx). lia.
Qed.

Lemma train_loop_returns dm n :
  forall i ids t,
    Forall token_id ids ->
    1 <= Z.of_nat (length ids) <= MAX_TEXT_SIZE ->
    0 <= i ->
    Z.of_nat (length ids) + i <= MAX_TEXT_SIZE + 1 ->
    exists r, train_loop dm n i ids t = Returns r.
Proof.
  induction n as [|n IH]; intros i ids t Hids Hlen Hi Hbound; [eexists; reflexivity|].
  destruct (token_counts_complete dm ids Hids) as [es [Hres Hiff]]; [lia|].
  destruct (best_count (flat es) 0 {| first := 0; second := 0 |}) as [mc bp] eqn:Hbest.
  destruct (Z.eq_dec mc 0) as [-> | Hmc].
  - cbn [train_loop]. rewrite Hres. cbn [bind]. rewrite firstn_flat, Hbest.
    eexists. reflexivity.
  - rewrite (train_loop_merges dm n i ids t es mc bp Hres Hbest Hmc) by lia.
    pose proof (best_count_flat es 0 {| first := 0; second := 0 |}) as Hb.
    rewrite Hbest in Hb. cbn [fst snd] in Hb.
    destruct Hb as [[Hm _]|[_ Hin]]; [congruence|].
    apply Hiff in Hin.
    pose proof (merge_scan_shorter ids bp (256 + i) Hin).
    pose proof (merge_scan_nonempty ids bp (256 + i) ltac:(lia)).
    apply IH.
    + apply merge_scan_Forall; [exact Hids|].
      unfold token_id. unfold MAX_TEXT_SIZE in *. lia.
    + lia.
    + lia.
    + lia.
Qed.

Lemma train_loop_rule_count dm n :
  forall i ids t r,
    Forall token_id ids ->
    0 <= i ->
    (i = 0 \/ Z.of_nat (length ids) + i <= MAX_TEXT_SIZE + 1) ->
    train_loop dm n i ids t = Returns r ->
    (length (merges (snd r)) <= length (merges t) + n)%nat /\
    (length (merges (snd r)) <= length (merges t) + (length ids - 1))%nat /\
    (length (merges t) <= length (merges (snd r)))%nat.
Proof.
  induction n as [|n IH]; intros i ids t r Hids Hi Hbound H.
  - cbn in H. injection H as <-. cbn [snd]. lia.
  - apply train_loop_step in H; try assumption.
    destruct H as [-> | [bp [Hin [Hcap H]]]]; [cbn [snd]; lia|].
    pose proof (merge_scan_shorter ids bp (256 + i) Hin) as Hshort.
    assert (Hne : (1 <= length (merge_scan ids bp (256 + i)))%nat).
    { apply merge_scan_nonempty. lia. }
    apply IH in H.
    + cbn [merges] in H. rewrite length_app in H. cbn [length] in H. lia.
    + apply merge_scan_Forall; [exact Hids|].
      unfold token_id. unfold MAX_TEXT_SIZE in *. lia.
    + lia.
    + right. unfold MAX_TEXT_SIZE in *. lia.
Qed.

(** X10. On a text of 1 to [MAX_TEXT_SIZE] bytes and a target from 256 up
    to where the array of merges asked for,
    [(target - 256) * sizeof(Merge)] bytes, is still the size of an object,
    [train] makes no access outside its arrays and returns, whatever the
    tokenizer it is given.  (Below 256 and beyond that bound the size
    computed for the array wraps around or is refused.) *)
Theorem train_returns_within_buffer (dm : data_model) (t : BasicTokenizer)
    (text : string) (target : Z) :
  1 <= Z.of_nat (length (c_chars text)) <= MAX_TEXT_SIZE ->
  INITIAL_VOCAB_SIZE <= target ->
  (target - INITIAL_VOCAB_SIZE) * sizeof_Merge <= PTRDIFF_MAX dm ->
  exists t', train dm t text target = Returns t'.
Proof.
  intros Hlen Htarget Hfit.
  assert (Hn : to_size_t dm (target - INITIAL_VOCAB_SIZE) = target - INITIAL_VOCAB_SIZE).
  { unfold to_size_t. apply Z.mod_small.
    unfold PTRDIFF_MAX, sizeof_Merge, sizeof_int in Hfit.
    destruct dm; cbn [size_bits] in *; lia. }
  destruct (train_loop_returns dm (Z.to_nat (to_size_t dm (target - INITIAL_VOCAB_SIZE))) 0
              (c_chars text)
              {| merges := []; num_merges := num_merges t;
                 vocab := vocab t; vocab_size := vocab_size t |})
    as [[ids t'] Hr]; try lia.
  - apply c_chars_token_ids.
  - exists t'. apply (train_of_loop dm t text target ids); [| exact Hr |].
    + unfold MAX_TEXT_SIZE, sizeof_int, PTRDIFF_MAX in *.
      destruct dm; cbn [size_bits]; lia.
    + rewrite Hn, malloc_cells_exact by (unfold sizeof_Merge, sizeof_int in *; lia).
      apply train_loop_rule_count in Hr.
      * cbn [snd merges length] in Hr. lia.
      * apply c_chars_token_ids.
      * lia.
      * left. reflexivity.
Qed.

Lemma train_returns_within_buffer_witness :
  exists t', train ILP32 two_rules "hello world the sky is blue"%string 300 = Returns t'.
Proof.
  apply train_returns_within_buffer; vm_compute; try split; discriminate.
Defined.

(** X11. With an empty text and a target that asks for at least one merge,
    [train] reads [ids[0]] of an array without cells: the bound
    [ids_size - 1] of [token_counts] has wrapped. *)
Theorem train_empty_text_undefined (dm : data_model) (t : BasicTokenizer)
    (text : string) (target : Z) :
  c_chars text = [] ->
  0 < to_size_t dm (target - INITIAL_VOCAB_SIZE) ->
  train dm t text target = Undefined.
Proof.
  intros Hempty Hn. apply train_of_undefined_loop. rewrite Hempty.
  destruct (Z.to_nat (to_size_t dm (target - INITIAL_VOCAB_SIZE))) eqn:E; [lia|].
  reflexivity.
Qed.

Lemma train_empty_text_undefined_witness :
  train LP64 create_tokenizer EmptyString 257 = Undefined.
Proof.
  apply train_empty_text_undefined; [reflexivity | vm_compute; reflexivity].
Defined.

Lemma train_loop_fields dm n :
  forall i ids t r,
    train_loop dm n i ids t = Returns r ->
    num_merges (snd r) = num_merges t /\ vocab_size (snd r) = vocab_size t.
Proof.
  induction n as [|n IH]; intros i ids t r H.
  - cbn in H. injection H as <-. auto.
  - cbn [train_loop] in H. returned H as [cells n_pairs] eqn:Htc.
    destruct (best_count _ 0 _) as [mc bp].
    destruct (mc =? 0); [injection H as <-; auto|].
    returned H as ids' eqn:Hm. returned H as vocab' eqn:Hw.
    apply IH in H. cbn [num_merges vocab_size] in H. exact H.
Qed.

(** X12. [train] assigns neither [num_merges] nor [vocab_size]: whatever the
    tokenizer, the text and the target, both fields are after training what
    they were before, so every tokenizer a program can hold has them at 0
    and 256. *)
Theorem train_leaves_the_counts (dm : data_model) (t t' : BasicTokenizer)
    (text : string) (target : Z) :
  train dm t text target = Returns t' ->
  num_merges t' = num_merges t /\ vocab_size t' = vocab_size t /\
  (reachable dm t -> num_merges t' = 0 /\ vocab_size t' = INITIAL_VOCAB_SIZE).
Proof.
  intros H.
  assert (Hk : forall t0 t1 tx tg, train dm t0 tx tg = Returns t1 ->
            num_merges t1 = num_merges t0 /\ vocab_size t1 = vocab_size t0).
  { clear. intros t0 t1 tx tg H. apply train_Returns in H. destruct H as [ids [E _]].
    apply train_loop_fields in E. exact E. }
  destruct (Hk _ _ _ _ H) as [H1 H2]. split; [exact H1|]. split; [exact H2|].
  intros Hr. rewrite H1, H2. clear H H1 H2.
  induction Hr as [|t0 tx tg t1 Hr [IH1 IH2] Ht]; [split; reflexivity|].
  destruct (Hk _ _ _ _ Ht) as [H1 H2]. split; congruence.
Qed.

Lemma train_leaves_the_counts_witness :
  exists t', train LP64 two_rules "aaab"%string 257 = Returns t' /\ num_merges t' = 2.
Proof.
  assert (Ht : exists t', train LP64 two_rules "aaab"%string 257 = Returns t').
  { vm_compute. eexists. reflexivity. }
  destruct Ht as [t' Ht]. exists t'. split; [exact Ht|].
  destruct (train_leaves_the_counts LP64 two_rules t' "aaab"%string 257 Ht) as [H _].
  exact H.
Defined.

(** X13. [train] learns no more rules than the target asks for beyond 256,
    and fewer rules than the text has bytes: every merge takes at least one
    id off the sequence. *)
Theorem train_rule_count (dm : data_model) (t t' : BasicTokenizer)
    (text : string) (target : Z) :
  train dm t text target = Returns t' ->
  Z.of_nat (length (merges t')) <= to_size_t dm (target - INITIAL_VOCAB_SIZE) /\
  (length (merges t') <= length (c_chars text) - 1)%nat.
Proof.
  intros H. apply train_Returns in H. destruct H as [ids [E _]].
  apply train_loop_rule_count in E.
  - cbn [snd merges length] in E.
    assert (0 <= to_size_t dm (target - INITIAL_VOCAB_SIZE)).
    { unfold to_size_t. apply Z.mod_pos_bound. destruct dm; reflexivity. }
    lia.
  - apply c_chars_token_ids.
  - lia.
  - left. reflexivity.
Qed.

Lemma train_rule_count_witness :
  exists t', train ILP32 create_tokenizer "hello world"%string 300 = Returns t' /\
             (length (merges t') <= 10)%nat.
Proof.
  assert (Ht : exists t', train ILP32 create_tokenizer "hello world"%string 300 = Returns t').
  { vm_compute. eexists. reflexivity. }
  destruct Ht as [t' Ht]. exists t'. split; [exact Ht|].
  destruct (train_rule_count ILP32 create_tokenizer t' "hello world"%string 300 Ht) as [_ H].
  exact H.
Defined.

Lemma train_loop_no_rule dm n i ids t r :
  Forall token_id ids ->
  0 <= i ->
  (i = 0 \/ Z.of_nat (length ids) + i <= MAX_TEXT_SIZE + 1) ->
  train_loop dm n i ids t = Returns r ->
  length (merges (snd r)) = length (merges t) ->
  snd r = t.
Proof.
  intros Hids Hi Hbound H Hlen. destruct n as [|n].
  - cbn in H. injection H as <-. reflexivity.
  - apply train_loop_step in H; try assumption.
    destruct H as [-> | [bp [Hin [Hcap H]]]]; [reflexivity|].
    exfalso. apply train_loop_rule_count in H.
    + cbn [merges] in H. rewrite length_app in H. cbn [length] in H. lia.
    + apply merge_scan_Forall; [exact Hids|].
      unfold token_id. unfold MAX_TEXT_SIZE in *. lia.
    + lia.
    + right. pose proof (merge_scan_shorter ids bp (256 + i) Hin).
      unfold MAX_TEXT_SIZE in *. lia.
Qed.

(** X14. What [train] leaves in a tokenizer a program can hold: rule [k]
    carries the new id [256 + k]; once a merge has been made the vocabulary
    is the 256 single bytes followed, for each rule in order, by the two
    ids of its pair cut to a byte each; when no merge has been made the
    vocabulary is as it was. *)
Theorem train_numbers_the_rules (dm : data_model) (t t' : BasicTokenizer)
    (text : string) (target : Z) :
  reachable dm t ->
  train dm t text target = Returns t' ->
  (forall k m, nth_error (merges t') k = Some m -> idx m = 256 + Z.of_nat k) /\
  (merges t' <> [] ->
   vocab t' = vocab create_tokenizer ++ map entry_of (merges t')) /\
  (merges t' = [] -> vocab t' = vocab t).
Proof.
  intros Hr H. destruct (reachable_keeps dm t Hr) as [_ Hv].
  destruct (train_layout dm t text target t' Hv H) as [Hl Hnum].
  split; [exact Hnum|]. destruct Hv as [Hbase _]. split.
  - intros Hne. destruct Hl as [[Hm _]|Hl]; [contradiction|].
    rewrite Hl, Hbase. reflexivity.
  - intros He. apply train_Returns in H. destruct H as [ids [E _]].
    apply train_loop_no_rule in E.
    + cbn [snd] in E. rewrite E. reflexivity.
    + apply c_chars_token_ids.
    + lia.
    + left. reflexivity.
    + cbn [snd merges]. rewrite He. reflexivity.
Qed.

Lemma train_numbers_the_rules_witness :
  exists t', train LP64 create_tokenizer "aaaa"%string 258 = Returns t' /\
             forall k m, nth_error (merges t') k = Some m -> idx m = 256 + Z.of_nat k.
Proof.
  assert (Ht : exists t', train LP64 create_tokenizer "aaaa"%string 258 = Returns t').
  { vm_compute. eexists. reflexivity. }
  destruct Ht as [t' Ht]. exists t'. split; [exact Ht|].
  destruct (train_numbers_the_rules LP64 create_tokenizer t' "aaaa"%string 258) as [H _].
  - constructor.
  - exact Ht.
  - exact H.
Defined.

(** *** The pair [train] selects *)

Lemma best_count_once ps :
  forall best_pair,
    best_count (flat (map once ps)) 1 best_pair = (1, best_pair).
Proof.
  induction ps as [|p ps IH]; intros bp; [reflexivity|].
  cbn [map once flat best_count]. rewrite Z.ltb_irrefl. apply IH.
Qed.

(** X15. Where [size_t] is wider than [int], every count being 1, an
    iteration of training on a sequence of token ids merges the leftmost
    pair [(ids[0], ids[1])], however often the other pairs occur. *)
Theorem train_LP64_merges_leftmost_pair (n : nat) (i a b : Z) (rest : list Z)
    (t : BasicTokenizer) :
  Forall token_id (a :: b :: rest) ->
  Z.of_nat (length (a :: b :: rest)) <= MAX_TEXT_SIZE ->
  0 <= i ->
  Z.of_nat (length (a :: b :: rest)) + i <= MAX_TEXT_SIZE + 1 ->
  train_loop LP64 (S n) i (a :: b :: rest) t =
  train_loop LP64 n (i + 1)
    (merge_scan (a :: b :: rest) {| first := a; second := b |} (256 + i))
    {| merges := merges t ++ [{| pair := {| first := a; second := b |}; idx := 256 + i |}];
       num_merges := num_merges t;
       vocab := upd (realloc (256 + i + 1) (vocab t)) (Z.to_nat (256 + i))
                    [to_uchar a; to_uchar b];
       vocab_size := vocab_size t |}.
Proof.
  intros Hids Hlen Hi Hbound.
  assert (Ha : is_int a /\ is_int b).
  { inversion Hids as [|? ? Ha Hids']; subst. inversion Hids' as [|? ? Hb _]; subst.
    split; apply token_id_is_int; assumption. }
  destruct Ha as [Ha Hb].
  apply (train_loop_merges LP64 n i (a :: b :: rest) t
           (map once (adjacent_pairs (a :: b :: rest))) 1).
  - apply token_counts_LP64_table; [exact Hids|]. cbn [length] in *. lia.
  - rewrite adjacent_pairs_step. cbn [map once flat best_count first second Z.ltb Z.compare].
    rewrite best_count_once. rewrite !to_int_id by assumption. reflexivity.
  - discriminate.
  - cbn [length] in *. lia.
  - exact Hlen.
Qed.

Lemma train_LP64_merges_leftmost_pair_witness :
  train_loop LP64 1 0 [97; 98; 99; 98; 99] create_tokenizer =
  train_loop LP64 0 1 [256; 99; 98; 99]
    {| merges := [{| pair := {| first := 97; second := 98 |}; idx := 256 |}];
       num_merges := 0;
       vocab := vocab create_tokenizer ++ [[97; 98]];
       vocab_size := 256 |}.
Proof.
  rewrite (train_LP64_merges_leftmost_pair 0 0 97 98 [99; 98; 99] create_tokenizer).
  - reflexivity.
  - apply Forall_forall. intros x Hx. unfold token_id. cbn in Hx. lia.
  - vm_compute. discriminate.
  - lia.
  - vm_compute. discriminate.
Defined.

Lemma best_count_max es :
  forall max_count best_pair,
    let r := best_count (flat es) max_count best_pair in
    (fst r = max_count /\ snd r = best_pair /\ forall e, In e es -> snd e <= max_count) \/
    (exists es1 e es2,
       es = es1 ++ e :: es2 /\ snd r = pair_of e /\ fst r = snd e /\
       max_count < snd e /\
       (forall e', In e' es1 -> snd e' < snd e) /\
       (forall e', In e' es2 -> snd e' <= snd e)).
Proof.
  induction es as [|[[f s] c] es IH]; intros mc bp.
  - left. cbn. repeat split. intros e [].
  - cbn [flat best_count]. cbv zeta.
    destruct (mc <? c) eqn:E.
    + apply Z.ltb_lt in E.
      destruct (IH c {| first := to_int f; second := to_int s |})
        as [[H1 [H2 H3]]|[es1 [e [es2 [He [H2 [H1 [Hlt [Hb Ha]]]]]]]]].
      * right. exists [], (f, s, c), es. cbn [app snd pair_of].
        repeat split; try assumption. intros e' [].
      * right. exists ((f, s, c) :: es1), e, es2. subst es. cbn [app].
        repeat split; try assumption; [lia|].
        intros e' [<- | He']; [cbn [snd]; lia | auto].
    + apply Z.ltb_ge in E.
      destruct (IH mc bp) as [[H1 [H2 H3]]|[es1 [e [es2 [He [H2 [H1 [Hlt [Hb Ha]]]]]]]]].
      * left. repeat split; try assumption.
        intros e [<- | He]; [cbn [snd]; lia | auto].
      * right. exists ((f, s, c) :: es1), e, es2. subst es. cbn [app].
        repeat split; try assumption.
        intros e' [<- | He']; [cbn [snd]; lia | auto].
Qed.

Lemma occurrences_In q ps : In q ps -> 1 <= occurrences q ps.
Proof.
  induction ps as [|p ps IH]; [intros []|].
  cbn [occurrences]. pose proof (occurrences_bounds q ps) as Hb.
  intros [-> | Hin].
  - rewrite (proj2 (pair_eqb_eq q q) eq_refl). lia.
  - specialize (IH Hin). destruct (pair_eqb p q); lia.
Qed.

Lemma distinct_In q ps : In q (distinct ps) -> In q ps.
Proof.
  induction ps as [|p ps IH]; [intros []|].
  cbn [distinct]. intros [-> | H]; [left; reflexivity|].
  apply filter_In in H. right. apply IH. tauto.
Qed.

Lemma memb_In q ps : memb q ps = true <-> In q ps.
Proof.
  unfold memb. rewrite existsb_exists. split.
  - intros [x [Hx Hq]]. apply pair_eqb_eq in Hq. subst. exact Hx.
  - intros H. exists q. split; [exact H | apply pair_eqb_eq; reflexivity].
Qed.

(** X16. Where [size_t] has the width of [int], an iteration of training on
    a sequence of at least two token ids merges a pair that occurs most
    often in the sequence, and among the pairs that do, the one whose
    first occurrence is leftmost. *)
Theorem train_ILP32_merges_most_frequent_pair (n : nat) (i : Z) (ids : list Z)
    (t : BasicTokenizer) :
  Forall token_id ids ->
  2 <= Z.of_nat (length ids) <= MAX_TEXT_SIZE ->
  0 <= i ->
  Z.of_nat (length ids) + i <= MAX_TEXT_SIZE + 1 ->
  exists p before after,
    distinct (adjacent_pairs ids) = before ++ p :: after /\
    (forall q, occurrences q (adjacent_pairs ids) <= occurrences p (adjacent_pairs ids)) /\
    (forall q, In q before ->
               occurrences q (adjacent_pairs ids) < occurrences p (adjacent_pairs ids)) /\
    train_loop ILP32 (S n) i ids t =
    train_loop ILP32 n (i + 1) (merge_scan ids p (256 + i))
      {| merges := merges t ++ [{| pair := p; idx := 256 + i |}];
         num_merges := num_merges t;
         vocab := upd (realloc (256 + i + 1) (vocab t)) (Z.to_nat (256 + i))
                      [to_uchar (first p); to_uchar (second p)];
         vocab_size := vocab_size t |}.
Proof.
  intros Hids Hlen Hi Hbound.
  assert (Hint : Forall is_int ids).
  { eapply Forall_impl; [|exact Hids]. apply token_id_is_int. }
  destruct (token_counts_ILP32_table ids Hint) as [es [Htc [Hkeys [Hcount Hzero]]]]; [lia|].
  assert (Hpos : forall e, In e es -> 1 <= snd e).
  { intros e He. rewrite (Hcount e He). apply occurrences_In, distinct_In.
    rewrite <- Hkeys. apply in_map. exact He. }
  pose proof (best_count_max es 0 {| first := 0; second := 0 |}) as Hmax.
  destruct (best_count (flat es) 0 {| first := 0; second := 0 |}) as [mc bp] eqn:Hbest.
  cbn [fst snd] in Hmax.
  destruct Hmax as [[-> [_ Hall]]|[es1 [e [es2 [He [-> [-> [Hlt [Hb Ha]]]]]]]]].
  - exfalso. destruct es as [|e es].
    + cbn [map] in Hkeys. destruct ids as [|a [|b rest]]; cbn [length] in Hlen; try lia.
      rewrite adjacent_pairs_step in Hkeys. discriminate.
    + specialize (Hall e (or_introl eq_refl)). specialize (Hpos e (or_introl eq_refl)). lia.
  - assert (Hine : In e es) by (rewrite He; apply in_or_app; right; left; reflexivity).
    exists (pair_of e), (map pair_of es1), (map pair_of es2).
    split; [rewrite <- Hkeys, He, map_app; reflexivity|].
    rewrite <- (Hcount e Hine). split; [|split].
    + intros q. destruct (memb q (map pair_of es)) eqn:Eq.
      * apply memb_In, in_map_iff in Eq. destruct Eq as [e' [<- He']].
        rewrite <- (Hcount e' He'). rewrite He in He'.
        apply in_app_or in He'. destruct He' as [H1 | [<- | H2]];
          [specialize (Hb _ H1); lia | lia | exact (Ha _ H2)].
      * rewrite Hzero; [lia|]. intros Hq. apply memb_In in Hq. congruence.
    + intros q Hq. apply in_map_iff in Hq. destruct Hq as [e' [<- He']].
      rewrite <- (Hcount e'); [exact (Hb _ He')|].
      rewrite He. apply in_or_app. left. exact He'.
    + apply (train_loop_merges ILP32 n i ids t es (snd e)); try assumption; try lia.
Qed.

Lemma train_ILP32_merges_most_frequent_pair_witness :
  exists p,
    train_loop ILP32 1 0 [97; 98; 99; 98; 99] create_tokenizer =
    train_loop ILP32 0 1 (merge_scan [97; 98; 99; 98; 99] p 256)
      {| merges := [{| pair := p; idx := 256 |}];
         num_merges := 0;
         vocab := upd (realloc 257 (vocab create_tokenizer)) 256
                      [to_uchar (first p); to_uchar (second p)];
         vocab_size := 256 |} /\
    occurrences {| first := 97; second := 98 |} (adjacent_pairs [97; 98; 99; 98; 99])
      <= occurrences p (adjacent_pairs [97; 98; 99; 98; 99]).
Proof.
  destruct (train_ILP32_merges_most_frequent_pair 0 0 [97; 98; 99; 98; 99] create_tokenizer)
    as [p [before [after [_ [Hmax [_ Heq]]]]]].
  - apply Forall_forall. intros x Hx. unfold token_id. cbn in Hx. lia.
  - vm_compute. split; discriminate.
  - lia.
  - vm_compute. discriminate.
  - exists p. split; [exact Heq | apply Hmax].
Defined.

(** *** The array of merges *)

(** On a sequence of two or more token ids an iteration of training
    learns a rule. *)
Lemma train_loop_first_rule dm n i ids t :
  Forall token_id ids ->
  2 <= Z.of_nat (length ids) <= MAX_TEXT_SIZE ->
  0 <= i ->
  Z.of_nat (length ids) + i <= MAX_TEXT_SIZE + 1 ->
  exists p,
    In p (adjacent_pairs ids) /\
    train_loop dm (S n) i ids t =
    train_loop dm n (i + 1) (merge_scan ids p (256 + i))
      {| merges := merges t ++ [{| pair := p; idx := 256 + i |}];
         num_merges := num_merges t;
         vocab := upd (realloc (256 + i + 1) (vocab t)) (Z.to_nat (256 + i))
                      [to_uchar (first p); to_uchar (second p)];
         vocab_size := vocab_size t |}.
Proof.
  intros Hids Hlen Hi Hbound.
  assert (Hint : Forall is_int ids).
  { eapply Forall_impl; [|exact Hids]. apply token_id_is_int. }
  destruct dm.
  - destruct (token_counts_ILP32_table ids Hint) as [es [Htc [Hkeys [Hcount _]]]]; [lia|].
    assert (Hpos : forall e, In e es -> 1 <= snd e).
    { intros e He. rewrite (Hcount e He). apply occurrences_In, distinct_In.
      rewrite <- Hkeys. apply in_map. exact He. }
    pose proof (best_count_max es 0 {| first := 0; second := 0 |}) as Hmax.
    destruct (best_count (flat es) 0 {| first := 0; second := 0 |}) as [mc bp] eqn:Hbest.
    cbn [fst snd] in Hmax.
    destruct Hmax as [[-> [_ Hall]]|[es1 [e [es2 [He [-> [-> [Hlt _]]]]]]]].
    + exfalso. destruct es as [|e es].
      * cbn [map] in Hkeys. destruct ids as [|a [|b rest]]; cbn [length] in Hlen; try lia.
        rewrite adjacent_pairs_step in Hkeys. discriminate.
      * specialize (Hall e (or_introl eq_refl)). specialize (Hpos e (or_introl eq_refl)). lia.
    + exists (pair_of e). split.
      * apply distinct_In. rewrite <- Hkeys, He, map_app.
        apply in_or_app. right. left. reflexivity.
      * apply (train_loop_merges ILP32 n i ids t es (snd e)); try assumption; lia.
  - destruct ids as [|a [|b rest]]; cbn [length] in Hlen; try lia.
    assert (Ha : is_int a /\ is_int b).
    { inversion Hint as [|? ? Ha Hint']; subst. inversion Hint' as [|? ? Hb _]; subst. auto. }
    destruct Ha as [Ha Hb].
    exists {| first := a; second := b |}. split.
    + rewrite adjacent_pairs_step. left. reflexivity.
    + apply (train_loop_merges LP64 n i (a :: b :: rest) t
               (map once (adjacent_pairs (a :: b :: rest))) 1).
      * apply token_counts_LP64_table; [exact Hids|]. cbn [length] in *. lia.
      * rewrite adjacent_pairs_step.
        cbn [map once flat best_count first second Z.ltb Z.compare].
        rewrite best_count_once. rewrite !to_int_id by assumption. reflexivity.
      * discriminate.
      * lia.
      * cbn [length]. lia.
Qed.

(** Below 256 the number of merges wraps around, and the size computed for
    the array of merges is beyond every object. *)
Lemma small_target_no_cell dm target :
  0 <= target < INITIAL_VOCAB_SIZE ->
  0 < to_size_t dm (target - INITIAL_VOCAB_SIZE) /\
  malloc_cells dm (to_size_t dm (target - INITIAL_VOCAB_SIZE) * sizeof_Merge) sizeof_Merge = 0.
Proof.
  intros Ht. unfold INITIAL_VOCAB_SIZE in *.
  assert (Hn : to_size_t dm (target - 256) = 2 ^ size_bits dm + (target - 256)).
  { unfold to_size_t. symmetry. apply (Z.mod_unique_pos _ _ (-1)).
    - destruct dm; cbn [size_bits]; lia.
    - lia. }
  rewrite Hn. split; [destruct dm; cbn [size_bits]; lia|].
  unfold malloc_cells, sizeof_Merge, sizeof_int. cbv zeta.
  assert (Hb : to_size_t dm ((2 ^ size_bits dm + (target - 256)) * (3 * 4)) =
               2 ^ size_bits dm - 12 * (256 - target)).
  { unfold to_size_t. symmetry. apply (Z.mod_unique_pos _ _ 11).
    - destruct dm; cbn [size_bits]; lia.
    - lia. }
  rewrite Hb.
  destruct (_ <=? _) eqn:E; [|reflexivity].
  apply Z.leb_le in E. unfold PTRDIFF_MAX in E.
  destruct dm; cbn [size_bits Z.sub Z.pos_sub Pos.pred_double] in E; lia.
Qed.

(** X25. Where the array of merges [train] allocates has no cell, the
    first rule is written outside of it: on a text of 2 to [MAX_TEXT_SIZE]
    bytes [train] has no defined behaviour.  That is so for every target
    below 256, the number of merges wrapping around to a size no object
    has, and for a target such as [2 ^ 62 + 256] where [size_t] has 64
    bits, the size [num_merges * sizeof(Merge)] wrapping around to 0. *)
Theorem train_overruns_merges (dm : data_model) (t : BasicTokenizer)
    (text : string) (target : Z) :
  2 <= Z.of_nat (length (c_chars text)) <= MAX_TEXT_SIZE ->
  0 <= target < INITIAL_VOCAB_SIZE \/
  (0 < to_size_t dm (target - INITIAL_VOCAB_SIZE) /\
   malloc_cells dm (to_size_t dm (target - INITIAL_VOCAB_SIZE) * sizeof_Merge)
     sizeof_Merge = 0) ->
  train dm t text target = Undefined.
Proof.
  intros Hlen Hroom.
  assert (H : 0 < to_size_t dm (target - INITIAL_VOCAB_SIZE) /\
              malloc_cells dm (to_size_t dm (target - INITIAL_VOCAB_SIZE) * sizeof_Merge)
                sizeof_Merge = 0).
  { destruct Hroom as [Ht | H]; [apply small_target_no_cell; exact Ht | exact H]. }
  clear Hroom. destruct H as [Hn Hcells].
  pose proof (c_chars_token_ids text) as Hids.
  destruct (Z.to_nat (to_size_t dm (target - INITIAL_VOCAB_SIZE))) as [|n] eqn:En; [lia|].
  set (t0 := {| merges := []; num_merges := num_merges t;
                vocab := vocab t; vocab_size := vocab_size t |}).
  destruct (train_loop_first_rule dm n 0 (c_chars text) t0 Hids Hlen) as [p [Hp Hstep]];
    [lia | lia |].
  unfold train. cbv zeta. destruct (_ <? _); [reflexivity|].
  rewrite En. fold t0. rewrite Hstep.
  destruct (train_loop dm n (0 + 1) _ _) as [[ids2 t2]|] eqn:Hrest; [|reflexivity].
  cbn [bind]. rewrite Hcells.
  destruct (_ <=? 0) eqn:E; [|reflexivity].
  apply Z.leb_le in E. exfalso.
  apply train_loop_rule_count in Hrest.
  - cbn [snd merges] in Hrest. rewrite length_app in Hrest. cbn [length] in Hrest. lia.
  - apply merge_scan_Forall; [exact Hids|]. unfold token_id. lia.
  - lia.
  - right. pose proof (merge_scan_shorter (c_chars text) p (256 + 0) Hp).
    unfold MAX_TEXT_SIZE in *. lia.
Qed.

Lemma train_overruns_merges_witness :
  train ILP32 create_tokenizer "ab"%string 255 = Undefined /\
  train LP64 create_tokenizer "aaab"%string 4611686018427388160 = Undefined.
Proof.
  split.
  - apply train_overruns_merges; [vm_compute; split; discriminate|].
    left. unfold INITIAL_VOCAB_SIZE. lia.
  - apply train_overruns_merges; [vm_compute; split; discriminate|].
    right. split; vm_compute; reflexivity.
Defined.

(** ** encode *)

Lemma encode_no_rules dm t text :
  num_merges t = 0 ->
  Z.of_nat (length (c_chars text)) <= MAX_TEXT_SIZE ->
  encode dm t text = Returns (c_chars text).
Proof.
  intros Hnum Hlen. unfold encode. cbv zeta.
  destruct (length (c_chars text)) as [|fuel] eqn:El; [reflexivity|].
  cbn [encode_loop]. rewrite El.
  destruct (2 <=? Z.of_nat (S fuel)) eqn:E; [|reflexivity].
  destruct (token_counts_complete dm (c_chars text) (c_chars_token_ids text))
    as [es [Hres _]].
  { rewrite El. unfold MAX_TEXT_SIZE in *. lia. }
  unfold encode_step. rewrite Hres. cbn [bind]. rewrite firstn_flat.
  rewrite best_rank_no_merges by exact Hnum. reflexivity.
Qed.

(** X17. On every tokenizer a program can hold, trained or not, [encode]
    returns the bytes of the text as they are: [train] leaving
    [num_merges] at 0, no learned id is ever written. *)
Theorem encode_returns_the_bytes (dm : data_model) (t : BasicTokenizer) (text : string) :
  reachable dm t ->
  Z.of_nat (length (c_chars text)) <= MAX_TEXT_SIZE ->
  encode dm t text = Returns (c_chars text).
Proof.
  intros Hr Hlen. apply encode_no_rules; [|exact Hlen].
  apply (reachable_keeps dm t Hr).
Qed.

Lemma encode_returns_the_bytes_witness :
  exists t, train ILP32 create_tokenizer "abab"%string 300 = Returns t /\
            encode ILP32 t "abab"%string = Returns [97; 98; 97; 98].
Proof.
  assert (Ht : exists t, train ILP32 create_tokenizer "abab"%string 300 = Returns t).
  { vm_compute. eexists. reflexivity. }
  destruct Ht as [t Ht]. exists t. split; [exact Ht|].
  apply (encode_returns_the_bytes ILP32 t "abab"%string).
  - eapply reachable_train; [constructor | exact Ht].
  - vm_compute. discriminate.
Defined.

(** An iteration of the loop of [encode] that does not [break] has merged
    a pair of the sequence into the id of a cell of [merges]. *)
Lemma encode_step_merged dm t ids ids' :
  Forall is_int ids ->
  encode_step dm t ids = Returns (Some ids') ->
  exists p m, In p (adjacent_pairs ids) /\ In m (merges t) /\
              ids' = merge_scan ids p (idx m).
Proof.
  intros Hint H. unfold encode_step in H.
  returned H as [cells n_pairs] eqn:Htc.
  destruct (token_counts_sound dm ids cells n_pairs Hint Htc) as [es [-> [-> Hincl]]].
  rewrite firstn_flat in H.
  returned H as [bp bi] eqn:Hbr.
  apply best_rank_result in Hbr.
  destruct (first bp =? -1) eqn:E; [discriminate|].
  destruct Hbr as [-> | Hin]; [cbn in E; discriminate|].
  returned H as m eqn:Hrd.
  returned H as out eqn:Hm.
  injection H as <-.
  apply merge_Returns in Hm. destruct Hm as [-> _].
  exists bp, m. split; [apply Hincl; exact Hin|]. split; [|reflexivity].
  apply rd_nth_error in Hrd. destruct Hrd as [_ Hn].
  eapply nth_error_In. exact Hn.
Qed.

Lemma encode_loop_output dm t (P : Z -> Prop) :
  Forall (fun m => is_int (idx m)) (merges t) ->
  (forall m, In m (merges t) -> P (idx m)) ->
  forall fuel ids out,
    Forall is_int ids ->
    Forall P ids ->
    encode_loop dm fuel t ids = Returns out ->
    (length out <= length ids)%nat /\ Forall P out.
Proof.
  intros Hidx HP. induction fuel as [|fuel IH]; intros ids out Hint Hids H.
  - cbn in H. injection H as <-. auto.
  - cbn [encode_loop] in H.
    destruct (2 <=? Z.of_nat (length ids)); [|injection H as <-; auto].
    returned H as step eqn:Hstep.
    destruct step as [ids'|]; [|injection H as <-; auto].
    destruct (encode_step_merged dm t ids ids' Hint Hstep) as [p [m [Hp [Hm ->]]]].
    pose proof (merge_scan_length ids p (idx m)).
    apply IH in H.
    + destruct H as [H1 H2]. split; [lia | exact H2].
    + apply merge_scan_Forall; [exact Hint|].
      rewrite Forall_forall in Hidx. exact (Hidx m Hm).
    + apply merge_scan_Forall; [exact Hids | exact (HP m Hm)].
Qed.

(** X18. Whatever sequence [encode] returns is no longer than the text, and
    each of its ids is a byte of the text or the id of a cell of
    [merges]. *)
Theorem encode_output_bounded (dm : data_model) (t : BasicTokenizer) (text : string)
    (out : list Z) :
  Forall (fun m => is_int (idx m)) (merges t) ->
  encode dm t text = Returns out ->
  (length out <= length (c_chars text))%nat /\
  Forall (fun z => In z (c_chars text) \/ exists m, In m (merges t) /\ idx m = z) out.
Proof.
  intros Hidx H. unfold encode in H. cbv zeta in H.
  apply (encode_loop_output dm t
           (fun z => In z (c_chars text) \/ exists m, In m (merges t) /\ idx m = z)
           Hidx) in H.
  - exact H.
  - intros m Hm. right. eauto.
  - eapply Forall_impl; [|apply c_chars_token_ids]. apply token_id_is_int.
  - apply Forall_forall. intros z Hz. left. exact Hz.
Qed.

Lemma encode_output_bounded_witness :
  exists out, encode LP64 two_rules "abcbc"%string = Returns out /\
              (length out <= 5)%nat.
Proof.
  assert (He : exists out, encode LP64 two_rules "abcbc"%string = Returns out).
  { vm_compute. eexists. reflexivity. }
  destruct He as [out He]. exists out. split; [exact He|].
  destruct (encode_output_bounded LP64 two_rules "abcbc"%string out) as [H _].
  - apply Forall_forall. intros m Hm. unfold is_int. cbn in Hm.
    destruct Hm as [<- | [<- | []]]; cbn [idx]; lia.
  - exact He.
  - exact H.
Defined.

Lemma token_counts_LP64_undefined ids :
  Forall token_id ids ->
  MAX_TEXT_SIZE + 1 < Z.of_nat (length ids) ->
  token_counts LP64 ids = Undefined.
Proof.
  intros Hids Hlen. destruct ids as [|a ids]; [reflexivity|].
  unfold token_counts.
  change (@nil Z) with (flat []). change 0 with (Z.of_nat (@length (Z * Z * Z) [])).
  apply token_counts_loop_LP64_overflow.
  - exact Hids.
  - constructor.
  - cbn [length]. lia.
  - cbn. discriminate.
  - cbn [length] in *. lia.
Qed.

(** X19. Where [size_t] is wider than [int], a text of more than
    [MAX_TEXT_SIZE + 1] bytes overruns the table of counts: [encode] of it
    has no defined behaviour on any tokenizer, nor has [train] as soon as
    the target asks for a merge. *)
Theorem LP64_long_text_overruns_table (t : BasicTokenizer) (text : string) (target : Z) :
  MAX_TEXT_SIZE + 1 < Z.of_nat (length (c_chars text)) ->
  encode LP64 t text = Undefined /\
  (0 < to_size_t LP64 (target - INITIAL_VOCAB_SIZE) ->
   train LP64 t text target = Undefined).
Proof.
  intros Hlen.
  pose proof (token_counts_LP64_undefined (c_chars text) (c_chars_token_ids text) Hlen) as Htc.
  split.
  - unfold encode. cbv zeta.
    destruct (length (c_chars text)) as [|fuel] eqn:El; [cbn in Hlen; lia|].
    cbn [encode_loop]. rewrite El.
    destruct (2 <=? Z.of_nat (S fuel)) eqn:E;
      [|apply Z.leb_gt in E; unfold MAX_TEXT_SIZE in Hlen; lia].
    unfold encode_step. rewrite Htc. reflexivity.
  - intros Hn. apply train_of_undefined_loop.
    destruct (Z.to_nat (to_size_t LP64 (target - INITIAL_VOCAB_SIZE))) eqn:E; [lia|].
    cbn [train_loop]. rewrite Htc. reflexivity.
Qed.

Lemma LP64_long_text_overruns_table_witness :
  encode LP64 create_tokenizer (letters 1026) = Undefined.
Proof.
  destruct (LP64_long_text_overruns_table create_tokenizer (letters 1026) 257) as [H _].
  - vm_compute. reflexivity.
  - exact H.
Defined.

(** X24. On a tokenizer whose [num_merges] counts the rules of [merges],
    as in a model built by hand, [encode] of a text within the working
    buffer returns, and what it returns is reached as the specification
    says: at each iteration the pair of lowest rank among the adjacent
    pairs present that have a rank is merged into the id recorded with it,
    whatever the counts of the pairs in the text, and the encoder stops
    only when no pair present has a rank. *)
Theorem encode_lowest_rank_first (dm : data_model) (t : BasicTokenizer) (text : string) :
  model_ok dm t ->
  Z.of_nat (length (c_chars text)) <= MAX_TEXT_SIZE ->
  exists out,
    encode dm t text = Returns out /\
    spec_encode t (c_chars text) out.
Proof.
  intros Hok Hlen. unfold encode. cbv zeta.
  apply encode_fuel_enough; auto using c_chars_token_ids.
Qed.

Lemma two_rules_ok : model_ok LP64 two_rules.
Proof.
  unfold model_ok, merge_table, two_rules, token_id.
  cbn [num_merges merges length idx].
  split; [reflexivity|]. split; [vm_compute; discriminate|].
  repeat constructor.
Defined.

Lemma encode_lowest_rank_first_witness :
  exists out,
    encode LP64 two_rules "abcbc"%string = Returns out /\
    spec_encode two_rules (c_chars "abcbc"%string) out /\
    out = [256; 99; 257] /\
    encode_step LP64 two_rules [97; 98; 99; 98; 99] = Returns (Some [256; 99; 98; 99]).
Proof.
  destruct (encode_lowest_rank_first LP64 two_rules "abcbc"%string) as [out [He Hs]].
  - exact two_rules_ok.
  - vm_compute. discriminate.
  - exists out. split; [exact He|]. split; [exact Hs|].
    vm_compute in He. injection He as <-. split; reflexivity.
Defined.

(** ** decode *)

(** X20. [decode] writes one byte for each id, the first byte of the entry
    of the id, whatever the entry holds after it. *)
Theorem decode_one_byte_per_id (t : BasicTokenizer) (ids text : list Z) :
  decode t ids = Returns text ->
  Forall2 (fun id c => exists rest, rd (vocab t) id = Returns (c :: rest)) ids text.
Proof.
  revert text. induction ids as [|id ids IH]; intros text H.
  - cbn in H. injection H as <-. constructor.
  - cbn [decode] in H.
    returned H as entry eqn:He.
    returned H as c eqn:Hc.
    returned H as text' eqn:Ht.
    injection H as <-.
    constructor; [|apply IH; reflexivity].
    destruct entry as [|c' rest]; [discriminate|].
    cbn in Hc. injection Hc as ->. eauto.
Qed.

Lemma decode_one_byte_per_id_witness :
  Forall2 (fun id c => exists rest, rd (vocab two_rules) id = Returns (c :: rest))
          [104; 105] [104; 105].
Proof.
  apply (decode_one_byte_per_id two_rules [104; 105] [104; 105]). reflexivity.
Defined.

(** X21. After a training of a tokenizer a program can hold, [decode] of the
    new id of rule [k] writes one byte: the first id of the pair of the
    rule, cut to a byte. *)
Theorem decode_learned_id (dm : data_model) (t t' : BasicTokenizer) (text : string)
    (target : Z) (k : nat) (m : Merge) :
  reachable dm t ->
  train dm t text target = Returns t' ->
  nth_error (merges t') k = Some m ->
  decode t' [256 + Z.of_nat k] = Returns [to_uchar (first (pair m))].
Proof.
  intros Hr H Hk. destruct (reachable_keeps dm t Hr) as [_ Hv].
  destruct (train_layout dm t text target t' Hv H) as [[[He _]|Hl] _].
  - rewrite He in Hk. destruct k; discriminate.
  - assert (Hlen : length (firstn 256 (vocab t)) = 256%nat).
    { rewrite length_firstn. pose proof (vocab_ok_length _ Hv). lia. }
    assert (Hrd : rd (vocab t') (256 + Z.of_nat k) = Returns (entry_of m)).
    { apply rd_nth_error. split; [lia|].
      rewrite Hl, nth_error_app2 by lia.
      replace (Z.to_nat (256 + Z.of_nat k) - length (firstn 256 (vocab t)))%nat
        with k by lia.
      rewrite nth_error_map, Hk. reflexivity. }
    cbn [decode]. rewrite Hrd. reflexivity.
Qed.

Lemma decode_learned_id_witness :
  exists t',
    train LP64 create_tokenizer "aaaa"%string 258 = Returns t' /\
    nth_error (merges t') 1 =
      Some {| pair := {| first := 256; second := 256 |}; idx := 257 |} /\
    decode t' [257] = Returns [0].
Proof.
  destruct (train LP64 create_tokenizer "aaaa"%string 258) as [t'|] eqn:Ht;
    [|vm_compute in Ht; discriminate].
  assert (Hm : nth_error (merges t') 1 =
               Some {| pair := {| first := 256; second := 256 |}; idx := 257 |}).
  { vm_compute in Ht. injection Ht as <-. reflexivity. }
  exists t'. split; [reflexivity|]. split; [exact Hm|].
  apply (decode_learned_id LP64 create_tokenizer t' "aaaa"%string 258 1 _
           (reachable_create LP64) Ht Hm).
Defined.

(** X22. On every tokenizer a program can hold, [decode] of ids below 256
    writes those very bytes, zero included: training never touches the
    first 256 entries of the vocabulary. *)
Theorem decode_raw_bytes (dm : data_model) (t : BasicTokenizer) (ids : list Z) :
  reachable dm t ->
  Forall (fun z => 0 <= z < 256) ids ->
  decode t ids = Returns ids.
Proof.
  intros Hr. destruct (reachable_keeps dm t Hr) as [_ Hv].
  induction 1 as [|id ids Hid Hids IH]; [reflexivity|].
  cbn [decode]. rewrite (base_entry _ id Hv) by lia. cbn [bind].
  unfold rd at 1. cbn [Z.ltb Z.compare Z.to_nat nth_error bind].
  rewrite IH. reflexivity.
Qed.

Lemma decode_raw_bytes_witness :
  decode create_tokenizer [0; 255; 65] = Returns [0; 255; 65].
Proof.
  apply (decode_raw_bytes LP64 create_tokenizer [0; 255; 65]).
  - constructor.
  - apply Forall_forall. intros z Hz. cbn in Hz. lia.
Defined.

(** ** clean_tokenizer *)



